(** * flake8 [utils.py]: a shallow embedding and its properties

    The module under study is [src/flake8/utils.py].  Python strings are
    modelled as [string] (one [ascii] per code point below 256), Python
    lists as [list], and the generator [filenames_from] as the list of
    events it produces when it is consumed to the end. *)

From Stdlib Require Import Bool Arith Lia List Ascii String.
Import ListNotations.
Open Scope list_scope.
Open Scope string_scope.

(* ================================================================== *)
(** ** Python string methods used by the module *)

Module pystr.

(** [c in s] for a one-character needle. *)
Fixpoint contains (c : ascii) (s : string) : bool :=
  match s with
  | EmptyString => false
  | String a r => Ascii.eqb a c || contains c r
  end.

(** [s.startswith(c)] for a one-character prefix. *)
Definition startswith_char (c : ascii) (s : string) : bool :=
  match s with
  | EmptyString => false
  | String a _ => Ascii.eqb a c
  end.

Definition is_empty (s : string) : bool :=
  match s with
  | EmptyString => true
  | String _ _ => false
  end.

(** [str.isspace] on the code points below 256: TAB..CR, FS..US, space,
    NEL and NBSP. *)
Definition isspace (c : ascii) : bool :=
  let n := nat_of_ascii c in
  (((9 <=? n) && (n <=? 13)) || ((28 <=? n) && (n <=? 32))
   || (n =? 133) || (n =? 160))%nat.

(** [s.lstrip()] *)
Fixpoint lstrip (s : string) : string :=
  match s with
  | EmptyString => EmptyString
  | String a r => if isspace a then lstrip r else s
  end.

(** Removal of the trailing characters satisfying [f]; [s.rstrip()] and
    [s.rstrip('/')] are its two instances. *)
Fixpoint rstrip_by (f : ascii -> bool) (s : string) : string :=
  match s with
  | EmptyString => EmptyString
  | String a r =>
      let r' := rstrip_by f r in
      if is_empty r' && f a then EmptyString else String a r'
  end.

Definition rstrip (s : string) : string := rstrip_by isspace s.

(** [s.rstrip(c)] for a one-character argument. *)
Definition rstrip_char (c : ascii) (s : string) : string :=
  rstrip_by (fun a => Ascii.eqb a c) s.

(** [s.strip()] *)
Definition strip (s : string) : string := rstrip (lstrip s).

(** [s.split(sep)] for a one-character separator: never the empty list. *)
Fixpoint split (sep : ascii) (s : string) : list string :=
  match s with
  | EmptyString => [EmptyString]
  | String a r =>
      if Ascii.eqb a sep then EmptyString :: split sep r
      else match split sep r with
           | h :: t => String a h :: t
           | [] => [String a EmptyString]
           end
  end.

(** [sep.join(items)] *)
Fixpoint join (sep : string) (items : list string) : string :=
  match items with
  | [] => EmptyString
  | [x] => x
  | x :: rest => x ++ sep ++ join sep rest
  end.

(** Last character of a string, when there is one. *)
Fixpoint last_char (s : string) : option ascii :=
  match s with
  | EmptyString => None
  | String a EmptyString => Some a
  | String _ r => last_char r
  end.

(** [s.endswith(c)] for a one-character suffix. *)
Definition endswith_char (c : ascii) (s : string) : bool :=
  match last_char s with
  | Some a => Ascii.eqb a c
  | None => false
  end.

Fixpoint count_char (c : ascii) (s : string) : nat :=
  match s with
  | EmptyString => 0
  | String a r => (if Ascii.eqb a c then 1 else 0) + count_char c r
  end.

End pystr.

(* ================================================================== *)
(** ** [parse_comma_separated_list] *)

(** The values the parameter [value] takes: [None], a [str], a [list] or a
    [tuple] of [str]. *)
Inductive pyvalue : Type :=
| VNone
| VStr (s : string)
| VList (l : list string)
| VTuple (l : list string).

(** Python truth value: [None], [""], [[]] and [()] are false. *)
Definition truthy (v : pyvalue) : bool :=
  match v with
  | VNone => false
  | VStr s => negb (pystr.is_empty s)
  | VList l | VTuple l => match l with [] => false | _ :: _ => true end
  end.

Definition comma : ascii := ","%char.

Definition parse_comma_separated_list (value : pyvalue) : list string :=
  if negb (truthy value) then []
  else
    let value' :=
      match value with
      | VList l | VTuple l => l            (* isinstance(value, (list, tuple)) *)
      | VStr s => pystr.split comma s
      | VNone => []                        (* not reached: None is falsy *)
      end in
    map pystr.strip value'.

(* ================================================================== *)
(** ** [os.path] on POSIX, as far as [normalize_path] uses it *)

Module posixpath.

Definition sep : ascii := "/"%char.

(** [os.curdir] *)
Definition curdir : string := ".".

Definition isabs (s : string) : bool := pystr.startswith_char sep s.

(** [os.path.join(a, b)] *)
Definition join (a b : string) : string :=
  if pystr.startswith_char sep b then b
  else if pystr.is_empty a || pystr.endswith_char sep a then a ++ b
  else a ++ String sep b.

(** Number of leading slashes [normpath] keeps: 2 for exactly two, else
    1 for an absolute path, else 0. *)
Definition initial_slashes (path : string) : nat :=
  match path with
  | String a (String b EmptyString) =>
      if Ascii.eqb a sep then (if Ascii.eqb b sep then 2 else 1) else 0
  | String a (String b (String c _)) =>
      if Ascii.eqb a sep then
        (if Ascii.eqb b sep && negb (Ascii.eqb c sep) then 2 else 1)
      else 0
  | String a EmptyString => if Ascii.eqb a sep then 1 else 0
  | EmptyString => 0
  end.

(** One iteration of the component loop of [normpath]; [new_comps] is kept
    with its last element first. *)
Definition norm_step (slashes : nat) (new_comps : list string)
           (comp : string) : list string :=
  if String.eqb comp "" || String.eqb comp "." then new_comps
  else if negb (String.eqb comp "..")
          || ((slashes =? 0)%nat && match new_comps with [] => true | _ => false end)
          || match new_comps with
             | last :: _ => String.eqb last ".."
             | [] => false
             end
       then comp :: new_comps
       else match new_comps with
            | [] => []
            | _ :: t => t
            end.

Fixpoint slashes_string (n : nat) : string :=
  match n with
  | O => EmptyString
  | S k => String sep (slashes_string k)
  end.

(** [os.path.normpath(path)] *)
Definition normpath (path : string) : string :=
  if pystr.is_empty path then "."
  else
    let n := initial_slashes path in
    let comps := pystr.split sep path in
    let new_comps := rev (fold_left (norm_step n) comps []) in
    let path' := slashes_string n ++ pystr.join "/" new_comps in
    if pystr.is_empty path' then "." else path'.

(** [os.path.abspath(path)], with the process's working directory [cwd]
    (what [os.getcwd()] returns) made explicit. *)
Definition abspath (cwd path : string) : string :=
  normpath (if isabs path then path else join cwd path).

(** A component of a normalized absolute path. *)
Definition clean (c : string) : Prop :=
  c <> "" /\ c <> "." /\ c <> ".." /\ pystr.contains sep c = false.

End posixpath.

(* ================================================================== *)
(** ** [normalize_path] and [normalize_paths] *)

Definition normalize_path (cwd : string) (path parent : string) : string :=
  let path' :=
    if pystr.contains "/"%char path
    then posixpath.abspath cwd (posixpath.join parent path)
    else path in
  pystr.rstrip_char "/"%char path'.

Definition normalize_paths (cwd : string) (paths : pyvalue) (parent : string)
  : list string :=
  map (fun p => normalize_path cwd p parent) (parse_comma_separated_list paths).

(** [is_using_stdin] *)
Definition is_using_stdin (paths : list string) : bool :=
  existsb (String.eqb "-") paths.


(* ================================================================== *)
(** ** [stdin_get_value] *)

(** The part of the process state the function touches: the unread piped
    input, the number of [sys.stdin.read()] calls made so far, and the
    function attribute [stdin_get_value.cached_stdin] (absent, or the
    [StringIO] object, represented by the text it holds). *)
Record process : Type := mkProcess {
  stdin_pending : string;
  stdin_reads : nat;
  cached_stdin : option string
}.

Inductive exn : Type :=
| AttributeError.

Inductive outcome (A : Type) : Type :=
| Return (a : A)
| Raise (e : exn).
Arguments Return {A} a.
Arguments Raise {A} e.

(** [sys.stdin.read()]: everything up to end of input; afterwards the stream
    is exhausted. *)
Definition sys_stdin_read (st : process) : string * process :=
  (stdin_pending st,
   {| stdin_pending := "";
      stdin_reads := S (stdin_reads st);
      cached_stdin := cached_stdin st |}).

(** [cached_value.getvalue()]: an attribute lookup on [None] raises. *)
Definition getvalue (cached_value : option string) : outcome string :=
  match cached_value with
  | Some text => Return text
  | None => Raise AttributeError
  end.

Definition stdin_get_value (st : process) : outcome string * process :=
  let cached_value := cached_stdin st in
  let st' :=
    match cached_value with
    | None =>
        let (stdin_value, st1) := sys_stdin_read st in
        {| stdin_pending := stdin_pending st1;
           stdin_reads := stdin_reads st1;
           cached_stdin := Some stdin_value |}
    | Some _ => st
    end in
  (getvalue cached_value, st').

(** A process that has not called the function yet, with [input] piped. *)
Definition fresh_process (input : string) : process :=
  {| stdin_pending := input; stdin_reads := 0; cached_stdin := None |}.

(** [n] calls in a row: the outcomes, first call first, and the final state. *)
Fixpoint stdin_get_value_times (n : nat) (st : process)
  : list (outcome string) * process :=
  match n with
  | O => ([], st)
  | S k =>
      let (r, st1) := stdin_get_value st in
      let (rs, st2) := stdin_get_value_times k st1 in
      (r :: rs, st2)
  end.

(* ================================================================== *)
(** ** [filenames_from] *)

Local Open Scope list_scope.

(** What is observable of a traversal, in order of occurrence. *)
Inductive event : Type :=
| Listed (top : string) (dirs files : list string)
    (** [os.walk] listed directory [top] and yielded this triple *)
| Called (arg : string)
    (** [predicate(arg)] was evaluated *)
| Yielded (path : string).
    (** the generator yielded [path] *)

(** A file tree: regular files and directories with their listing, in the
    order the file system reports the entries. *)
Unset Elimination Schemes.
Inductive node : Type :=
| File
| Dir (entries : list (string * node)).
Set Elimination Schemes.

Definition is_dir (n : node) : bool :=
  match n with
  | Dir _ => true
  | File => false
  end.

(** The two name lists [os.walk] builds from a listing. *)
Fixpoint dirnames (entries : list (string * node)) : list string :=
  match entries with
  | [] => []
  | (name, n) :: rest =>
      if is_dir n then name :: dirnames rest else dirnames rest
  end.

Fixpoint nondirnames (entries : list (string * node)) : list string :=
  match entries with
  | [] => []
  | (name, n) :: rest =>
      if is_dir n then nondirnames rest else name :: nondirnames rest
  end.

Definition _default_predicate (_ : string) : bool := false.

(** [list.remove(x)]: drops the first element equal to [x]. *)
Fixpoint list_remove (x : string) (l : list string) : list string :=
  match l with
  | [] => []
  | y :: t => if String.eqb y x then t else y :: list_remove x t
  end.

(** The loop over [files] (lines 119-123). *)
Fixpoint files_loop (predicate : string -> bool) (root : string)
         (files : list string) : list event :=
  match files with
  | [] => []
  | filename :: rest =>
      let joined := posixpath.join root filename in
      (if predicate filename then [Called filename]
       else if predicate joined then [Called filename; Called joined]
       else [Called filename; Called joined; Yielded joined])
      ++ files_loop predicate root rest
  end.

(** The loop over [sub_directories] (lines 126-128).  A Python [for] over a
    list keeps an index [i] into the live list and stops when [i] reaches
    its current length; the body removes from the very list it iterates.
    Returns the predicate calls and the list as the loop leaves it. *)
Fixpoint sub_directories_loop (fuel : nat) (predicate : string -> bool)
         (i : nat) (sub_directories : list string)
  : list event * list string :=
  match fuel with
  | O => ([], sub_directories)
  | S fuel' =>
      match nth_error sub_directories i with
      | None => ([], sub_directories)
      | Some directory =>
          let sub_directories' :=
            if predicate directory
            then list_remove directory sub_directories
            else sub_directories in
          let (calls, final) :=
            sub_directories_loop fuel' predicate (S i) sub_directories' in
          (Called directory :: calls, final)
      end
  end.

(** The whole loop: the index starts at 0, and [length] iterations always
    suffice (see [sub_directories_loop_fuel]). *)
Definition prune (predicate : string -> bool) (sub_directories : list string)
  : list event * list string :=
  sub_directories_loop (List.length sub_directories) predicate 0
                       sub_directories.

(** The walk of the entry called [d], if [d] is listed. *)
Fixpoint descend (below : list (string * list event)) (d : string)
  : list event :=
  match below with
  | [] => []
  | (name, evs) :: rest => if String.eqb name d then evs else descend rest d
  end.

(** [os.walk(top)] top-down, run together with the body of the [for] over
    it: the triple is yielded, the body runs (and may shorten [dirs]), then
    the walk resumes and descends into what is left of [dirs], in order. *)
Fixpoint walk (predicate : string -> bool) (top : string) (n : node)
  : list event :=
  match n with
  | File => []
  | Dir entries =>
      let dirs := dirnames entries in
      let nondirs := nondirnames entries in
      let below :=
        (fix below (es : list (string * node)) : list (string * list event) :=
           match es with
           | [] => []
           | (name, sub) :: es' =>
               (name, walk predicate (posixpath.join top name) sub) :: below es'
           end) entries in
      let (calls, dirs') := prune predicate dirs in
      Listed top dirs nondirs
        :: files_loop predicate top nondirs
        ++ calls
        ++ flat_map (descend below) dirs'
  end.

(** [os.path.isdir(arg)], given what [arg] resolves to. *)
Definition os_path_isdir (target : option node) : bool :=
  match target with
  | Some n => is_dir n
  | None => false
  end.

(** [os.walk(arg)] with the loop body, given what [arg] resolves to; a path
    that cannot be listed gives an empty walk. *)
Definition os_walk (predicate : string -> bool) (arg : string)
           (target : option node) : list event :=
  match target with
  | Some n => walk predicate arg n
  | None => []
  end.

(** [filenames_from(arg, predicate)], consumed to the end.  [fs] resolves
    a path to the tree found there. *)
Definition filenames_from (fs : string -> option node) (arg : string)
           (predicate : option (string -> bool)) : list event :=
  let predicate :=
    match predicate with
    | None => _default_predicate
    | Some p => p
    end in
  if os_path_isdir (fs arg)
  then os_walk predicate arg (fs arg)
  else [Yielded arg].

(** Projections of an event list. *)
Fixpoint yielded (evs : list event) : list string :=
  match evs with
  | [] => []
  | Yielded path :: rest => path :: yielded rest
  | _ :: rest => yielded rest
  end.

Fixpoint called (evs : list event) : list string :=
  match evs with
  | [] => []
  | Called arg :: rest => arg :: called rest
  | _ :: rest => called rest
  end.

Fixpoint listed (evs : list event) : list string :=
  match evs with
  | [] => []
  | Listed top _ _ :: rest => top :: listed rest
  | _ :: rest => listed rest
  end.

(** A file system holding one tree at one path. *)
Definition mount (at_path : string) (n : node) : string -> option node :=
  fun path => if String.eqb path at_path then Some n else None.

(** The first entry of a listing with the given name. *)
Fixpoint lookup (d : string) (entries : list (string * node)) : option node :=
  match entries with
  | [] => None
  | (name, sub) :: rest => if String.eqb name d then Some sub else lookup d rest
  end.

(** Entry names as a file system has them: no separator inside a name. *)
Fixpoint names_ok (n : node) : bool :=
  match n with
  | File => true
  | Dir entries =>
      (fix all (es : list (string * node)) : bool :=
         match es with
         | [] => true
         | (name, sub) :: es' =>
             negb (pystr.contains posixpath.sep name) && names_ok sub && all es'
         end) entries
  end.

(** [os.path.basename]: what follows the last separator. *)
Definition basename (path : string) : string :=
  last (pystr.split posixpath.sep path) EmptyString.

(** The predicate calls of the loop over [sub_directories] in closed form:
    every name is queried in turn, except that the name following one that
    was just removed is passed over ([skip]). *)
Fixpoint scan (predicate : string -> bool) (skip : bool)
         (sub_directories : list string) : list string :=
  match sub_directories with
  | [] => []
  | d :: rest =>
      if skip then scan predicate false rest
      else d :: scan predicate (predicate d) rest
  end.

(** The list the loop over [sub_directories] leaves behind, in closed form
    for a listing without repeated names: a name is dropped when it is
    queried and excluded, and the name after a dropped one stays unseen. *)
Fixpoint keep (predicate : string -> bool) (skip : bool)
         (sub_directories : list string) : list string :=
  match sub_directories with
  | [] => []
  | d :: rest =>
      if skip then d :: keep predicate false rest
      else if predicate d then keep predicate true rest
           else d :: keep predicate false rest
  end.

(** The reading of the predicate contract for files under which both shapes
    of every candidate file are queried, whatever the first answer is. *)
Definition both_shapes_checked (evs : list event) : Prop :=
  forall cur dirs files f,
    In (Listed cur dirs files) evs -> In f files ->
    In f (called evs) /\ In (posixpath.join cur f) (called evs).

(** The reading of the pruning rule under which no excluded directory of a
    listing is ever listed itself. *)
Definition excluded_never_listed (predicate : string -> bool)
           (evs : list event) : Prop :=
  forall cur dirs files d,
    In (Listed cur dirs files) evs -> In d dirs -> predicate d = true ->
    ~ In (posixpath.join cur d) (listed evs).

(** What happens at one directory between [os.walk] yielding its triple and
    resuming: the triple, the loop over the files, the loop over the
    sub-directories. *)
Definition level_events (predicate : string -> bool) (cur : string)
           (entries : list (string * node)) : list event :=
  Listed cur (dirnames entries) (nondirnames entries)
    :: files_loop predicate cur (nondirnames entries)
    ++ fst (prune predicate (dirnames entries)).

(** [visits predicate top n cur entries]: the walk of [n] from [top] lists
    the directory [cur], whose entries are [entries].  It lists [top]
    itself, and then whatever the walk of a sub-directory left in [dirs]
    lists. *)
Inductive visits (predicate : string -> bool)
  : string -> node -> string -> list (string * node) -> Prop :=
| visits_here (top : string) (entries : list (string * node)) :
    visits predicate top (Dir entries) top entries
| visits_below (top : string) (entries : list (string * node))
               (d : string) (sub : node)
               (cur : string) (es : list (string * node)) :
    In d (snd (prune predicate (dirnames entries))) ->
    lookup d entries = Some sub ->
    visits predicate (posixpath.join top d) sub cur es ->
    visits predicate top (Dir entries) cur es.

(** Two inputs used below.  The tree of the specification's pruning
    example, and a directory whose two sub-directories are both excluded. *)
Definition spec_entries : list (string * node) :=
  [("keep.py", File);
   ("skip_dir", Dir [("inner.py", File)]);
   ("keep_dir", Dir [("x.py", File)])].

Definition spec_tree : node := Dir spec_entries.

Definition exclude_skip_dir (name : string) : bool :=
  String.eqb name "skip_dir".

Definition adjacent_entries : list (string * node) :=
  [("a", Dir [("x.py", File)]);
   ("b", Dir [("inner.py", File)])].

Definition adjacent_tree : node := Dir adjacent_entries.

Definition exclude_a_b (name : string) : bool :=
  String.eqb name "a" || String.eqb name "b".

(** A directory holding one file, and the predicate that excludes
    everything. *)
Definition one_file_entries : list (string * node) := [("f.py", File)].

Definition one_file_tree : node := Dir one_file_entries.

Definition exclude_all (_ : string) : bool := true.

(* ================================================================== *)
(** ** [fnmatch] *)

(** The wrapper, over the matcher it wraps: [_fnmatch.fnmatch] is the
    standard library's, taken here as a parameter. *)
Section Fnmatch.

Variable _fnmatch_fnmatch : string -> string -> bool.

Definition fnmatch (filename : string) (patterns : list string)
           (default : bool) : bool :=
  match patterns with
  | [] => default
  | _ :: _ => existsb (fun pattern => _fnmatch_fnmatch filename pattern) patterns
  end.

End Fnmatch.

(** A reference shell-glob matcher with [*], [?] and bracket classes,
    following the rules of the standard library's [fnmatch.translate] on
    POSIX; it is one matcher the wrapper can be run with. *)
Module glob.

Inductive token : Type :=
| Star
| AnyChar
| Lit (c : ascii)
| Class (negated : bool) (stuff : string).

(** The text before the first [']'] and the text after it. *)
Fixpoint find_close (s : string) : option (string * string) :=
  match s with
  | EmptyString => None
  | String a r =>
      if Ascii.eqb a "]" then Some (EmptyString, r)
      else match find_close r with
           | Some (body, rest) => Some (String a body, rest)
           | None => None
           end
  end.

(** After an opening bracket: an optional ['!'], then a [']'] standing
    first is part of the class, then everything up to the next [']']. *)
Definition bracket (s : string) : option (bool * string * string) :=
  let (negated, s1) :=
    match s with
    | String a r => if Ascii.eqb a "!" then (true, r) else (false, s)
    | EmptyString => (false, s)
    end in
  match s1 with
  | String a r =>
      if Ascii.eqb a "]" then
        match find_close r with
        | Some (body, rest) => Some (negated, String a body, rest)
        | None => None
        end
      else
        match find_close s1 with
        | Some (body, rest) => Some (negated, body, rest)
        | None => None
        end
  | EmptyString => None
  end.

Fixpoint tokenize (fuel : nat) (pat : string) : list token :=
  match fuel with
  | O => []
  | S fuel' =>
      match pat with
      | EmptyString => []
      | String c rest =>
          if Ascii.eqb c "*" then Star :: tokenize fuel' rest
          else if Ascii.eqb c "?" then AnyChar :: tokenize fuel' rest
          else if Ascii.eqb c "[" then
            match bracket rest with
            | Some (negated, stuff, rest') =>
                Class negated stuff :: tokenize fuel' rest'
            | None => Lit c :: tokenize fuel' rest
            end
          else Lit c :: tokenize fuel' rest
      end
  end.

Definition ascii_le (a b : ascii) : bool :=
  (nat_of_ascii a <=? nat_of_ascii b)%nat.

(** Membership in the body of a class: [lo-hi] is a range, anything else
    stands for itself. *)
Fixpoint in_class (stuff : string) (c : ascii) : bool :=
  match stuff with
  | EmptyString => false
  | String lo (String dash (String hi rest as tail) as after) =>
      if Ascii.eqb dash "-"
      then (ascii_le lo c && ascii_le c hi) || in_class rest c
      else Ascii.eqb lo c || in_class after c
  | String a rest => Ascii.eqb a c || in_class rest c
  end.

Definition matches_char (t : token) (c : ascii) : bool :=
  match t with
  | Star | AnyChar => true
  | Lit a => Ascii.eqb a c
  | Class negated stuff => xorb negated (in_class stuff c)
  end.

Fixpoint matches (ts : list token) (s : string) : bool :=
  match ts with
  | [] => pystr.is_empty s
  | Star :: ts' =>
      (fix star (s : string) : bool :=
         matches ts' s
         || match s with
            | EmptyString => false
            | String _ r => star r
            end) s
  | t :: ts' =>
      match s with
      | EmptyString => false
      | String c r => matches_char t c && matches ts' r
      end
  end.

Definition fnmatch (name pat : string) : bool :=
  matches (tokenize (String.length pat) pat) name.

End glob.

(* ================================================================== *)
(** ** Files of a tree *)

(** [file_at top n path]: [path] is the joined path of a file found in the
    tree [n] when [n] sits at [top]. *)
Inductive file_at : string -> node -> string -> Prop :=
| file_here (top : string) (entries : list (string * node))
            (f : string) (sub : node) :
    In (f, sub) entries -> is_dir sub = false ->
    file_at top (Dir entries) (posixpath.join top f)
| file_below (top : string) (entries : list (string * node))
             (d : string) (sub : node) (path : string) :
    In (d, sub) entries ->
    file_at (posixpath.join top d) sub path ->
    file_at top (Dir entries) path.

(** No listing of the tree repeats a name. *)
Fixpoint unique_names (n : node) : Prop :=
  match n with
  | File => True
  | Dir entries =>
      NoDup (map fst entries)
      /\ (fix all (es : list (string * node)) : Prop :=
            match es with
            | [] => True
            | (_, sub) :: es' => unique_names sub /\ all es'
            end) entries
  end.

(** No two names that the predicate excludes stand next to each other. *)
Fixpoint no_adjacent_excluded (predicate : string -> bool)
         (sub_directories : list string) : bool :=
  match sub_directories with
  | x :: (y :: _) as rest =>
      negb (predicate x && predicate y) && no_adjacent_excluded predicate rest
  | _ => true
  end.

(** Every listing of the tree names its sub-directories once each and has
    no two excluded ones next to each other. *)
Fixpoint prunable (predicate : string -> bool) (n : node) : Prop :=
  match n with
  | File => True
  | Dir entries =>
      NoDup (dirnames entries)
      /\ no_adjacent_excluded predicate (dirnames entries) = true
      /\ (fix all (es : list (string * node)) : Prop :=
            match es with
            | [] => True
            | (_, sub) :: es' => prunable predicate sub /\ all es'
            end) entries
  end.

(* ================================================================== *)
(** ** [parameters_for] *)

(** [inspect.Parameter.kind] *)
Inductive parameter_kind : Type :=
| POSITIONAL_ONLY
| POSITIONAL_OR_KEYWORD
| VAR_POSITIONAL
| KEYWORD_ONLY
| VAR_KEYWORD.

Record parameter : Type := mkParameter {
  parameter_name : string;
  parameter_kind_of : parameter_kind
}.

(** What [parameters_for] looks at in [plugin.plugin]: whether
    [inspect.isfunction] holds of it, and the parameters that
    [inspect.signature] reports, for the function itself or else for its
    [__init__] attribute. *)
Inductive plugin_object : Type :=
| PluginFunction (signature : list parameter)
| PluginClass (init_signature : list parameter).

Definition is_positional_or_keyword (prm : parameter) : bool :=
  match parameter_kind_of prm with
  | POSITIONAL_OR_KEYWORD => true
  | _ => false
  end.

(** [list.remove(x)] with its error: [None] stands for the [ValueError]
    raised when [x] is not in the list. *)
Fixpoint list_remove_checked (x : string) (l : list string)
  : option (list string) :=
  match l with
  | [] => None
  | y :: t =>
      if String.eqb y x then Some t
      else match list_remove_checked x t with
           | Some t' => Some (y :: t')
           | None => None
           end
  end.

(** [parameters_for(plugin)] on Python 3.3 and later (lines 177-186);
    [None] stands for the [ValueError] of [parameters.remove('self')]. *)
Definition parameters_for (plugin : plugin_object) : option (list string) :=
  let is_class :=
    match plugin with
    | PluginFunction _ => false
    | PluginClass _ => true
    end in
  let func :=
    match plugin with
    | PluginFunction signature => signature
    | PluginClass init_signature => init_signature
    end in
  let parameters :=
    map parameter_name (filter is_positional_or_keyword func) in
  if is_class then list_remove_checked "self" parameters
  else Some parameters.

(* ================================================================== *)
(** ** Token predicates *)

(** The token types of [tokenize] that the module names, and the others. *)
Inductive token_type : Type :=
| ENDMARKER
| NAME
| NUMBER
| STRING
| NEWLINE_TOKEN
| INDENT
| DEDENT
| OP
| COMMENT
| NL
| ERRORTOKEN
| OtherToken (code : nat).

(** A token as [tokenize] yields it:
    [(type, string, (srow, scol), (erow, ecol), line)]. *)
Record token : Type := mkToken {
  token_type_of : token_type;
  token_string : string;
  token_start : nat * nat;
  token_end : nat * nat;
  token_line : string
}.

Definition token_type_eqb (a b : token_type) : bool :=
  match a, b with
  | ENDMARKER, ENDMARKER | NAME, NAME | NUMBER, NUMBER | STRING, STRING
  | NEWLINE_TOKEN, NEWLINE_TOKEN | INDENT, INDENT | DEDENT, DEDENT
  | OP, OP | COMMENT, COMMENT | NL, NL | ERRORTOKEN, ERRORTOKEN => true
  | OtherToken m, OtherToken n => Nat.eqb m n
  | _, _ => false
  end.

(** [NEWLINE = frozenset([tokenize.NL, tokenize.NEWLINE])] *)
Definition NEWLINE : list token_type := [NL; NEWLINE_TOKEN].

Definition newline_char : ascii := "010"%char.

(** The two-character string backslash, newline. *)
Definition backslash_newline : string :=
  String "\"%char (String newline_char EmptyString).

(** [s[n:]] for [n >= 0] *)
Fixpoint slice_from (n : nat) (s : string) : string :=
  match n, s with
  | O, _ => s
  | S _, EmptyString => EmptyString
  | S k, String _ r => slice_from k r
  end.

(** The first definition of [is_eol_token] (line 194). *)
Definition _is_eol_token (tok : token) : bool :=
  existsb (token_type_eqb (token_type_of tok)) NEWLINE
  || String.eqb
       (pystr.lstrip (slice_from (snd (token_end tok)) (token_line tok)))
       backslash_newline.

(** [is_eol_token] as the module leaves it: redefined when
    [COMMENT_WITH_NL] holds (lines 198-202). *)
Definition is_eol_token (COMMENT_WITH_NL : bool) (tok : token) : bool :=
  if COMMENT_WITH_NL
  then _is_eol_token tok
       || (token_type_eqb (token_type_of tok) COMMENT
           && String.eqb (token_string tok) (token_line tok))
  else _is_eol_token tok.

Definition is_multiline_string (tok : token) : bool :=
  token_type_eqb (token_type_of tok) STRING
  && pystr.contains newline_char (token_string tok).

(** Strings made of whitespace only. *)
Fixpoint all_space (s : string) : bool :=
  match s with
  | EmptyString => true
  | String a r => pystr.isspace a && all_space r
  end.

(* ================================================================== *)
(** * Properties *)

(** ** Strings *)

Module pystr_facts.
Import pystr.
Local Open Scope string_scope.

Lemma split_not_nil (sep : ascii) (s : string) : split sep s <> [].
Proof.
  destruct s as [|a r]; simpl; [discriminate|].
  destruct (Ascii.eqb a sep); [discriminate|].
  destruct (split sep r); discriminate.
Qed.

Lemma split_without_sep (sep : ascii) (s : string) :
  contains sep s = false -> split sep s = [s].
Proof.
  induction s as [|a r IH]; simpl; intros H; [reflexivity|].
  apply orb_false_elim in H as [Ha Hr].
  rewrite Ha, (IH Hr). reflexivity.
Qed.

Lemma split_length (sep : ascii) (s : string) :
  List.length (split sep s) = S (count_char sep s).
Proof.
  induction s as [|a r IH]; simpl; [reflexivity|].
  destruct (Ascii.eqb a sep); simpl; [now rewrite IH|].
  destruct (split sep r) as [|h t] eqn:E; simpl in *; [discriminate|exact IH].
Qed.

Lemma split_pieces_without_sep (sep : ascii) (s : string) :
  Forall (fun x => contains sep x = false) (split sep s).
Proof.
  induction s as [|a r IH]; simpl.
  - constructor; [reflexivity|constructor].
  - destruct (Ascii.eqb a sep) eqn:Ea.
    + constructor; [reflexivity|exact IH].
    + destruct (split sep r) as [|h t]; simpl.
      * constructor; [simpl; now rewrite Ea|constructor].
      * inversion IH; subst. constructor; [simpl; now rewrite Ea|assumption].
Qed.

Lemma join_split (sep : ascii) (s : string) :
  join (String sep EmptyString) (split sep s) = s.
Proof.
  induction s as [|a r IH]; simpl; [reflexivity|].
  destruct (Ascii.eqb a sep) eqn:Ea.
  - apply Ascii.eqb_eq in Ea; subst a.
    pose proof (split_not_nil sep r) as Hn.
    destruct (split sep r) as [|h t]; [congruence|].
    simpl in *. now rewrite IH.
  - pose proof (split_not_nil sep r) as Hn.
    destruct (split sep r) as [|h t]; [congruence|].
    destruct t as [|h' t']; simpl in *; now rewrite <- IH.
Qed.

Lemma rstrip_by_idempotent (f : ascii -> bool) (s : string) :
  rstrip_by f (rstrip_by f s) = rstrip_by f s.
Proof.
  induction s as [|a r IH]; simpl; [reflexivity|].
  destruct (is_empty (rstrip_by f r) && f a) eqn:E; simpl; [reflexivity|].
  now rewrite IH, E.
Qed.

Lemma rstrip_by_without (f : ascii -> bool) (s : string) :
  (forall a, f a = true -> contains a s = false) -> rstrip_by f s = s.
Proof.
  induction s as [|a r IH]; simpl; intros H; [reflexivity|].
  rewrite IH.
  - destruct (f a) eqn:Fa; [|now rewrite andb_false_r].
    specialize (H a Fa). now rewrite Ascii.eqb_refl in H.
  - intros b Fb. specialize (H b Fb).
    now apply orb_false_elim in H.
Qed.

Lemma rstrip_char_without (c : ascii) (s : string) :
  contains c s = false -> rstrip_char c s = s.
Proof.
  intros H. apply rstrip_by_without.
  intros a Ha. apply Ascii.eqb_eq in Ha. now subst.
Qed.

(** Stripping on the right leaves a suffix alone once that suffix keeps a
    character. *)
Lemma rstrip_by_app (f : ascii -> bool) (x y : string) :
  rstrip_by f y <> EmptyString ->
  rstrip_by f (x ++ y) = x ++ rstrip_by f y.
Proof.
  intros Hy. induction x as [|a x IH]; simpl; [reflexivity|].
  rewrite IH.
  destruct (x ++ rstrip_by f y) eqn:E; simpl; [|reflexivity].
  destruct x; simpl in E; [congruence|discriminate].
Qed.

Lemma lstrip_head (s : string) :
  match lstrip s with
  | EmptyString => True
  | String a _ => isspace a = false
  end.
Proof.
  induction s as [|a r IH]; simpl; [exact I|].
  destruct (isspace a) eqn:E; [exact IH|exact E].
Qed.

Lemma lstrip_strip (s : string) : lstrip (strip s) = strip s.
Proof.
  unfold strip, rstrip. pose proof (lstrip_head s) as H.
  destruct (lstrip s) as [|a r]; simpl; [reflexivity|].
  rewrite H, andb_false_r. simpl. now rewrite H.
Qed.

Lemma rstrip_strip (s : string) : rstrip (strip s) = strip s.
Proof. unfold strip, rstrip. apply rstrip_by_idempotent. Qed.

End pystr_facts.

(** ** [parse_comma_separated_list] *)

Example parse_abc :
  parse_comma_separated_list (VStr "a, b ,c") = ["a"; "b"; "c"].
Proof. reflexivity. Qed.

Example parse_blank : parse_comma_separated_list (VStr "  ") = [""].
Proof. reflexivity. Qed.

Example parse_empty_items :
  parse_comma_separated_list (VStr ",, x ,") = [""; ""; "x"; ""].
Proof. reflexivity. Qed.

(** C5, as stated, fails on the empty string: it holds no comma, yet the
    guard [if not value] answers the empty list, not [[""]]. *)
Lemma parse_empty_string_is_not_singleton :
  pystr.contains comma "" = false
  /\ parse_comma_separated_list (VStr "") = []
  /\ parse_comma_separated_list (VStr "") <> [pystr.strip ""].
Proof. repeat split; discriminate. Qed.

(** C5 (amended): for every non-empty string [s] without a comma, the
    result is the one-element list [[s.strip()]]; this covers the strings
    made of whitespace only. *)
Theorem parse_without_comma (s : string) :
  s <> "" ->
  pystr.contains comma s = false ->
  parse_comma_separated_list (VStr s) = [pystr.strip s].
Proof.
  intros Hne Hc. unfold parse_comma_separated_list.
  destruct s as [|a r]; [congruence|]. cbn [truthy pystr.is_empty negb].
  now rewrite (pystr_facts.split_without_sep _ _ Hc).
Qed.

Lemma parse_without_comma_witness :
  parse_comma_separated_list (VStr "  ") = [""]
  /\ parse_comma_separated_list (VStr " a.py ") = ["a.py"].
Proof.
  split.
  - apply (parse_without_comma "  "); [discriminate|reflexivity].
  - apply (parse_without_comma " a.py "); [discriminate|reflexivity].
Defined.

(** C9: a string is split on [','] and every piece is stripped, in order
    (the pieces joined by [','] give the string back and hold no comma);
    ["a, b ,c"] gives [["a"; "b"; "c"]]; the empty string, the empty list
    and [None] give the empty list; every element of every result is
    stripped on both sides. *)
Theorem parse_comma_separated_list_spec :
  parse_comma_separated_list (VStr "a, b ,c") = ["a"; "b"; "c"]
  /\ parse_comma_separated_list (VStr "") = []
  /\ parse_comma_separated_list (VList []) = []
  /\ parse_comma_separated_list VNone = []
  /\ (forall c s,
         parse_comma_separated_list (VStr (String c s))
         = map pystr.strip (pystr.split comma (String c s)))
  /\ (forall s, pystr.join "," (pystr.split comma s) = s)
  /\ (forall s, Forall (fun x => pystr.contains comma x = false)
                       (pystr.split comma s))
  /\ (forall s, List.length (pystr.split comma s)
                = S (pystr.count_char comma s))
  /\ (forall l, parse_comma_separated_list (VList l) = map pystr.strip l)
  /\ (forall v, Forall (fun x => pystr.lstrip x = x /\ pystr.rstrip x = x)
                       (parse_comma_separated_list v)).
Proof.
  repeat match goal with |- _ /\ _ => split end; try reflexivity.
  - intros s. apply pystr_facts.join_split.
  - intros s. apply pystr_facts.split_pieces_without_sep.
  - intros s. apply pystr_facts.split_length.
  - intros [|x l]; reflexivity.
  - intros v. unfold parse_comma_separated_list.
    destruct (negb (truthy v)); [constructor|].
    apply Forall_forall. intros x Hx. apply in_map_iff in Hx as [y [<- _]].
    split; [apply pystr_facts.lstrip_strip|apply pystr_facts.rstrip_strip].
Qed.

(** ** [os.path.normpath] on absolute paths *)

Module posixpath_facts.
Import pystr pystr_facts posixpath.
Local Open Scope string_scope.

Lemma norm_step_clean (n : nat) (stack : list string) (c : string) :
  clean c -> norm_step n stack c = c :: stack.
Proof.
  intros (H0 & H1 & H2 & _). unfold norm_step.
  apply String.eqb_neq in H0, H1, H2. now rewrite H0, H1, H2.
Qed.

Lemma fold_norm_step_clean (n : nat) (cs stack : list string) :
  Forall clean cs ->
  fold_left (norm_step n) cs stack = (rev cs ++ stack)%list.
Proof.
  intros H. revert stack.
  induction H as [|c cs Hc _ IH]; intros stack; simpl; [reflexivity|].
  rewrite (norm_step_clean n stack c Hc), IH, <- app_assoc. reflexivity.
Qed.

(** On an absolute path the stack of [normpath] only ever holds clean
    components: [".."] pops, or is dropped at the root. *)
Lemma fold_norm_step_abs (n : nat) (comps stack : list string) :
  n <> 0 ->
  Forall (fun x => contains sep x = false) comps ->
  Forall clean stack ->
  Forall clean (fold_left (norm_step n) comps stack).
Proof.
  intros Hn Hc. revert stack.
  induction Hc as [|c comps Hc _ IH]; intros stack Hs; simpl; [exact Hs|].
  apply IH. unfold norm_step.
  destruct (String.eqb c "") eqn:E0; [exact Hs|].
  destruct (String.eqb c ".") eqn:E1; [exact Hs|]. simpl.
  destruct (String.eqb c "..") eqn:E2; simpl.
  - apply Nat.eqb_neq in Hn. rewrite Hn. simpl.
    destruct stack as [|l t]; [constructor|].
    inversion Hs as [|? ? Hl Ht]; subst.
    destruct Hl as (_ & _ & Hl & _). apply String.eqb_neq in Hl.
    rewrite Hl. exact Ht.
  - constructor; [|exact Hs].
    apply String.eqb_neq in E0, E1, E2. repeat split; assumption.
Qed.

Lemma split_sep_cons (r : string) :
  split sep (String sep r) = EmptyString :: split sep r.
Proof. reflexivity. Qed.

Lemma split_app_sep (x r : string) :
  contains sep x = false ->
  split sep (x ++ String sep r) = x :: split sep r.
Proof.
  induction x as [|a x IH]; simpl; intros H; [reflexivity|].
  apply orb_false_elim in H as [Ha Hx].
  now rewrite Ha, (IH Hx).
Qed.

Lemma split_join (cs : list string) :
  cs <> [] ->
  Forall (fun x => contains sep x = false) cs ->
  split sep (pystr.join "/" cs) = cs.
Proof.
  intros Hne H. induction H as [|c cs Hc Hcs IH]; [congruence|].
  destruct cs as [|d cs'].
  - simpl. now apply split_without_sep.
  - change (pystr.join "/" (c :: d :: cs')) with (c ++ String sep (pystr.join "/" (d :: cs'))).
    rewrite (split_app_sep _ _ Hc), IH; [reflexivity|discriminate].
Qed.

Lemma clean_Forall_nosep (cs : list string) :
  Forall clean cs -> Forall (fun x => contains sep x = false) cs.
Proof. apply Forall_impl. intros c H. apply H. Qed.

(** A joined list of clean components does not begin with a slash. *)
Lemma join_clean_head (cs : list string) :
  Forall clean cs -> startswith_char sep (pystr.join "/" cs) = false.
Proof.
  intros H. destruct H as [|c cs (H0 & _ & _ & Hc) _]; [reflexivity|].
  destruct c as [|a c]; [congruence|].
  simpl in Hc. apply orb_false_elim in Hc as [Ha _].
  destruct cs; simpl; exact Ha.
Qed.

Lemma initial_slashes_prefix (k : nat) (j : string) :
  k = 1 \/ k = 2 ->
  startswith_char sep j = false ->
  initial_slashes (slashes_string k ++ j) = k.
Proof.
  intros [-> | ->] Hj; simpl.
  - destruct j as [|a j]; [reflexivity|]. simpl in Hj.
    destruct j; now rewrite Hj.
  - destruct j as [|a j]; [reflexivity|]. simpl in Hj. now rewrite Hj.
Qed.

Lemma initial_slashes_abs (path : string) :
  isabs path = true ->
  initial_slashes path = 1 \/ initial_slashes path = 2.
Proof.
  unfold isabs. destruct path as [|a [|b [|c r]]]; simpl; intros H;
    try discriminate; rewrite H.
  - now left.
  - destruct (Ascii.eqb b sep); [now right|now left].
  - destruct (Ascii.eqb b sep && negb (Ascii.eqb c sep)); [now right|now left].
Qed.

Lemma slashes_string_head (k : nat) (j : string) :
  k = 1 \/ k = 2 -> exists r, slashes_string k ++ j = String sep r.
Proof. intros [-> | ->]; simpl; eexists; reflexivity. Qed.

(** The shape of [normpath] on an absolute path: one or two slashes, then
    clean components joined by slashes. *)
Lemma normpath_abs_shape (path : string) :
  isabs path = true ->
  exists k cs,
    (k = 1 \/ k = 2) /\ Forall clean cs
    /\ normpath path = slashes_string k ++ pystr.join "/" cs.
Proof.
  intros Habs. pose proof (initial_slashes_abs _ Habs) as Hk.
  exists (initial_slashes path),
    (rev (fold_left (norm_step (initial_slashes path)) (split sep path) [])).
  split; [exact Hk|]. split.
  - apply Forall_rev. apply fold_norm_step_abs.
    + destruct Hk as [-> | ->]; discriminate.
    + apply split_pieces_without_sep.
    + constructor.
  - unfold normpath. destruct path as [|a r]; [discriminate|].
    cbn [is_empty].
    destruct (slashes_string_head _
                (pystr.join "/" (rev (fold_left (norm_step (initial_slashes (String a r)))
                                          (split sep (String a r)) []))) Hk)
      as [r' ->].
    reflexivity.
Qed.

Lemma split_slashes (k : nat) (j : string) :
  split sep (slashes_string k ++ j) = (repeat EmptyString k ++ split sep j)%list.
Proof. induction k as [|k IH]; simpl; [reflexivity|]. now rewrite IH. Qed.

Lemma fold_norm_step_empties (n k : nat) (comps stack : list string) :
  fold_left (norm_step n) (repeat EmptyString k ++ comps)%list stack
  = fold_left (norm_step n) comps stack.
Proof. induction k as [|k IH]; simpl; [reflexivity|exact IH]. Qed.

(** [normpath] leaves such a path as it is. *)
Lemma normpath_fixed (k : nat) (cs : list string) :
  k = 1 \/ k = 2 ->
  Forall clean cs ->
  normpath (slashes_string k ++ pystr.join "/" cs) = slashes_string k ++ pystr.join "/" cs.
Proof.
  intros Hk Hcs. unfold normpath.
  destruct (slashes_string_head _ (pystr.join "/" cs) Hk) as [r Hr].
  rewrite Hr at 1. cbn [is_empty].
  rewrite (initial_slashes_prefix _ _ Hk (join_clean_head _ Hcs)).
  rewrite split_slashes, fold_norm_step_empties.
  assert (Hf : rev (fold_left (norm_step k) (split sep (pystr.join "/" cs)) []) = cs).
  { destruct cs as [|c cs'].
    - reflexivity.
    - rewrite split_join; [|discriminate|now apply clean_Forall_nosep].
      rewrite (fold_norm_step_clean k _ [] Hcs), app_nil_r. apply rev_involutive. }
  rewrite Hf, Hr. reflexivity.
Qed.

Lemma rstrip_by_keep (f : ascii -> bool) (x y : string) :
  rstrip_by f y = y -> y <> "" -> rstrip_by f (x ++ y) = x ++ y.
Proof.
  intros Hy Hne. rewrite rstrip_by_app; rewrite Hy; congruence.
Qed.

Lemma rstrip_join_clean (cs : list string) :
  cs <> [] ->
  Forall clean cs ->
  rstrip_char sep (pystr.join "/" cs) = pystr.join "/" cs /\ pystr.join "/" cs <> "".
Proof.
  intros Hne H. induction H as [|c cs Hc Hcs IH]; [congruence|].
  destruct cs as [|d cs'].
  - simpl. destruct Hc as (H0 & _ & _ & Hs).
    split; [now apply rstrip_char_without|exact H0].
  - destruct IH as [IH1 IH2]; [discriminate|].
    change (pystr.join "/" (c :: d :: cs'))
      with (c ++ (String sep "" ++ pystr.join "/" (d :: cs'))).
    assert (Hin : rstrip_char sep (String sep "" ++ pystr.join "/" (d :: cs'))
                  = String sep "" ++ pystr.join "/" (d :: cs')).
    { apply rstrip_by_keep; assumption. }
    split.
    + apply rstrip_by_keep; [exact Hin|discriminate].
    + destruct c; discriminate.
Qed.

Lemma rstrip_abs_clean (k : nat) (cs : list string) :
  k = 1 \/ k = 2 ->
  cs <> [] ->
  Forall clean cs ->
  rstrip_char sep (slashes_string k ++ pystr.join "/" cs)
  = slashes_string k ++ pystr.join "/" cs.
Proof.
  intros Hk Hne Hcs. destruct (rstrip_join_clean _ Hne Hcs) as [H1 H2].
  now apply rstrip_by_keep.
Qed.

Lemma rstrip_only_slashes (k : nat) :
  k = 1 \/ k = 2 -> rstrip_char sep (slashes_string k ++ "") = "".
Proof. intros [-> | ->]; reflexivity. Qed.

Lemma join_abs_right (a b : string) : isabs b = true -> join a b = b.
Proof. unfold join, isabs. now intros ->. Qed.

Lemma join_abs_left (a b : string) : isabs a = true -> isabs (join a b) = true.
Proof.
  unfold join, isabs. intros Ha.
  destruct (startswith_char sep b) eqn:Hb; [exact Hb|].
  destruct a as [|x a]; [discriminate|].
  destruct (is_empty (String x a) || endswith_char sep (String x a)); exact Ha.
Qed.

Lemma rstrip_by_last (f : ascii -> bool) (s : string) (a : ascii) :
  last_char (rstrip_by f s) = Some a -> f a = false.
Proof.
  induction s as [|b r IH]; simpl; [discriminate|].
  destruct (rstrip_by f r) as [|c r'] eqn:E; simpl.
  - destruct (f b) eqn:Fb; simpl; [discriminate|]. now intros [= <-].
  - exact IH.
Qed.

End posixpath_facts.

(** ** [normalize_path] *)

Example normalize_bare : normalize_path "/home/u" "foo.py" "." = "foo.py".
Proof. reflexivity. Qed.

Example normalize_sub :
  normalize_path "/home/u" "sub/../x//foo.py/" "." = "/home/u/x/foo.py".
Proof. reflexivity. Qed.

Example normalize_root : normalize_path "/home/u" "//" "." = "".
Proof. reflexivity. Qed.

Example normalize_paths_list :
  normalize_paths "/home/u" (VStr "a.py, sub/b.py/ ,/etc//x") "."
  = ["a.py"; "/home/u/sub/b.py"; "/etc/x"].
Proof. reflexivity. Qed.

Example is_using_stdin_examples :
  is_using_stdin ["-"; "a.py"] = true /\ is_using_stdin ["a.py"] = false.
Proof. split; reflexivity. Qed.

Section NormalizePath.
Import pystr pystr_facts posixpath posixpath_facts.
Local Open Scope string_scope.

Variables cwd parent : string.

Lemma normalize_path_bare (p : string) :
  contains "/" p = false -> normalize_path cwd p parent = p.
Proof.
  intros H. unfold normalize_path. rewrite H.
  now apply rstrip_char_without.
Qed.

(** What [normalize_path] returns for a path with a separator, when the
    working directory is absolute: the empty string (from the root), or a
    normalized absolute path that ends in a component. *)
Lemma normalize_path_shape (p : string) :
  isabs cwd = true ->
  contains "/" p = true ->
  normalize_path cwd p parent = ""
  \/ exists k cs,
       (k = 1 \/ k = 2) /\ cs <> [] /\ Forall clean cs
       /\ normalize_path cwd p parent = slashes_string k ++ pystr.join "/" cs.
Proof.
  intros Hcwd Hp. unfold normalize_path, abspath. rewrite Hp.
  set (q := posixpath.join parent p).
  assert (Hq : isabs (if isabs q then q else posixpath.join cwd q) = true).
  { destruct (isabs q) eqn:E; [exact E|now apply join_abs_left]. }
  destruct (normpath_abs_shape _ Hq) as (k & cs & Hk & Hcs & ->).
  destruct cs as [|c cs'].
  - left. now apply rstrip_only_slashes.
  - right. exists k, (c :: cs'). repeat split; try assumption; try discriminate.
    now apply rstrip_abs_clean.
Qed.

Lemma normalize_path_fixed (k : nat) (cs : list string) :
  k = 1 \/ k = 2 -> cs <> [] -> Forall clean cs ->
  normalize_path cwd (slashes_string k ++ pystr.join "/" cs) parent
  = slashes_string k ++ pystr.join "/" cs.
Proof.
  intros Hk Hne Hcs. unfold normalize_path, abspath.
  destruct (slashes_string_head _ (pystr.join "/" cs) Hk) as [r Hr].
  assert (Habs : isabs (slashes_string k ++ pystr.join "/" cs) = true).
  { rewrite Hr. reflexivity. }
  assert (Hc : contains "/" (slashes_string k ++ pystr.join "/" cs) = true).
  { rewrite Hr. reflexivity. }
  rewrite Hc, (join_abs_right parent _ Habs), Habs.
  rewrite (normpath_fixed _ _ Hk Hcs).
  now apply rstrip_abs_clean.
Qed.

End NormalizePath.

(** C6: [normalize_path] is idempotent for a fixed parent; [cwd] is what
    [os.getcwd()] returns, an absolute path. *)
Theorem normalize_path_idempotent (cwd parent p : string) :
  posixpath.isabs cwd = true ->
  normalize_path cwd (normalize_path cwd p parent) parent
  = normalize_path cwd p parent.
Proof.
  intros Hcwd. destruct (pystr.contains "/" p) eqn:Hp.
  - destruct (normalize_path_shape cwd parent p Hcwd Hp)
      as [-> | (k & cs & Hk & Hne & Hcs & ->)].
    + reflexivity.
    + now apply normalize_path_fixed.
  - now rewrite !(normalize_path_bare cwd parent p Hp).
Qed.

Lemma normalize_path_idempotent_witness :
  normalize_path "/home/u" (normalize_path "/home/u" "sub/../x//foo.py/" ".") "."
  = normalize_path "/home/u" "sub/../x//foo.py/" ".".
Proof. apply (normalize_path_idempotent "/home/u" "." "sub/../x//foo.py/"). reflexivity. Defined.

(** C7: with a separator in [p] the result is [abspath(join(parent, p))]
    with its trailing separators stripped; without one, [p] is returned
    unchanged; in both cases the result is a string that does not end in a
    separator, and the function is defined on every input. *)
Theorem normalize_path_spec (cwd parent p : string) :
  (pystr.contains "/" p = true ->
   normalize_path cwd p parent
   = pystr.rstrip_char "/" (posixpath.abspath cwd (posixpath.join parent p)))
  /\ (pystr.contains "/" p = false -> normalize_path cwd p parent = p)
  /\ pystr.endswith_char "/" (normalize_path cwd p parent) = false
  /\ exists r : string, normalize_path cwd p parent = r.
Proof.
  repeat split.
  - intros H. unfold normalize_path. now rewrite H.
  - apply normalize_path_bare.
  - unfold normalize_path, pystr.rstrip_char, pystr.endswith_char.
    match goal with
    | |- context [pystr.last_char (pystr.rstrip_by ?f ?s)] =>
        destruct (pystr.last_char (pystr.rstrip_by f s)) as [a|] eqn:E;
        [apply (posixpath_facts.rstrip_by_last f s a E)|reflexivity]
    end.
  - eexists. reflexivity.
Qed.

Lemma normalize_path_spec_witness :
  normalize_path "/home/u" "sub/foo.py/" "." = "/home/u/sub/foo.py"
  /\ normalize_path "/home/u" "foo.py" "." = "foo.py".
Proof.
  split.
  - rewrite (proj1 (normalize_path_spec "/home/u" "." "sub/foo.py/"));
      reflexivity.
  - apply (proj1 (proj2 (normalize_path_spec "/home/u" "." "foo.py"))).
    reflexivity.
Defined.

(** ** [stdin_get_value] *)

Lemma stdin_get_value_cached (st : process) (text : string) :
  cached_stdin st = Some text ->
  stdin_get_value st = (Return text, st).
Proof. intros H. unfold stdin_get_value. now rewrite H. Qed.

Lemma stdin_get_value_times_cached (n : nat) (st : process) (text : string) :
  cached_stdin st = Some text ->
  stdin_get_value_times n st = (repeat (Return text) n, st).
Proof.
  intros H. induction n as [|n IH]; cbn [stdin_get_value_times repeat];
    [reflexivity|].
  now rewrite (stdin_get_value_cached st text H), IH.
Qed.

(** Any number of calls reads standard input at most once, and every call
    after the first returns the piped input. *)
Lemma stdin_get_value_later_calls (n : nat) (input : string) :
  exists first st,
    stdin_get_value_times (S n) (fresh_process input)
    = (first :: repeat (Return input) n, st)
    /\ stdin_reads st = 1.
Proof.
  eexists _, _. split.
  - cbn [stdin_get_value_times]. unfold stdin_get_value at 1.
    cbn [fresh_process cached_stdin sys_stdin_read getvalue].
    rewrite (stdin_get_value_times_cached n _ input); reflexivity.
  - reflexivity.
Qed.

(** C3 (the code departs from it): the first call of a process reads the
    input and stores it, then raises [AttributeError], because the local
    [cached_value] is still [None] when [getvalue] is called on it; only
    the second call returns the input. *)
Theorem stdin_get_value_first_call_raises (input : string) :
  stdin_get_value_times 2 (fresh_process input)
  = ([Raise AttributeError; Return input],
     {| stdin_pending := ""; stdin_reads := 1; cached_stdin := Some input |}).
Proof. reflexivity. Qed.

(** ** The loop over [sub_directories] *)

Lemma list_remove_length (x : string) (l : list string) :
  List.length (list_remove x l) <= List.length l.
Proof.
  induction l as [|y t IH]; simpl; [lia|].
  destruct (String.eqb y x); simpl; lia.
Qed.

(** Fuel: once [fuel + i] reaches the length of the list, more fuel changes
    nothing; the loop then ends because the iterator is exhausted. *)
Lemma sub_directories_loop_fuel (p : string -> bool) (fuel : nat) :
  forall (i : nat) (l : list string) (fuel' : nat),
    List.length l <= fuel + i -> fuel <= fuel' ->
    sub_directories_loop fuel' p i l = sub_directories_loop fuel p i l.
Proof.
  induction fuel as [|fuel IH]; intros i l fuel' Hlen Hle.
  - assert (Hn : nth_error l i = None) by (apply nth_error_None; lia).
    destruct fuel'; simpl; [reflexivity|]. now rewrite Hn.
  - destruct fuel' as [|fuel']; [lia|]. simpl.
    destruct (nth_error l i) as [d|]; [|reflexivity].
    rewrite (IH (S i) _ fuel'); [reflexivity| |lia].
    destruct (p d); [|lia].
    pose proof (list_remove_length d l). lia.
Qed.

Lemma prune_fuel (p : string -> bool) (l : list string) (extra : nat) :
  sub_directories_loop (List.length l + extra) p 0 l = prune p l.
Proof. unfold prune. apply sub_directories_loop_fuel; lia. Qed.

(** Removing the element read at index [i] shifts the rest, whichever equal
    element [list.remove] actually deletes. *)
Lemma skipn_list_remove (d : string) :
  forall (l : list string) (i : nat),
    nth_error l i = Some d ->
    skipn (S i) (list_remove d l) = skipn (S (S i)) l.
Proof.
  induction l as [|y t IH]; intros i H; [destruct i; discriminate|].
  simpl list_remove. destruct (String.eqb y d) eqn:E.
  - reflexivity.
  - destruct i as [|i]; simpl in H.
    + injection H as ->. now rewrite String.eqb_refl in E.
    + change (skipn (S (S i)) (y :: list_remove d t))
        with (skipn (S i) (list_remove d t)).
      now rewrite (IH i H).
Qed.

Lemma skipn_nth_error (l : list string) (i : nat) (d : string) :
  nth_error l i = Some d -> skipn i l = d :: skipn (S i) l.
Proof.
  revert i. induction l as [|y t IH]; intros [|i] H; try discriminate.
  - now injection H as ->.
  - simpl in *. now apply IH.
Qed.

Lemma scan_skip (p : string -> bool) (l : list string) :
  scan p true l = scan p false (skipn 1 l).
Proof. destruct l; reflexivity. Qed.

(** The predicate calls of the loop, in closed form. *)
Lemma sub_directories_loop_called (p : string -> bool) (fuel : nat) :
  forall (i : nat) (l : list string),
    List.length l <= fuel + i ->
    called (fst (sub_directories_loop fuel p i l)) = scan p false (skipn i l).
Proof.
  induction fuel as [|fuel IH]; intros i l Hlen; simpl.
  - rewrite skipn_all2 by lia. reflexivity.
  - destruct (nth_error l i) as [d|] eqn:E.
    + destruct (sub_directories_loop fuel p (S i)
                  (if p d then list_remove d l else l)) as [calls final] eqn:L.
      cbn [fst called]. rewrite (skipn_nth_error l i d E). cbn [scan].
      f_equal.
      change calls with (fst (calls, final)). rewrite <- L.
      rewrite IH.
      * destruct (p d); [|reflexivity].
        rewrite (skipn_list_remove d l i E), scan_skip.
        rewrite skipn_skipn. reflexivity.
      * destruct (p d); [|lia]. pose proof (list_remove_length d l). lia.
    + apply nth_error_None in E. rewrite skipn_all2 by lia. reflexivity.
Qed.

Lemma prune_called (p : string -> bool) (l : list string) :
  called (fst (prune p l)) = scan p false l.
Proof. unfold prune. rewrite sub_directories_loop_called; [reflexivity|lia]. Qed.

Lemma list_remove_middle (d : string) (done rest : list string) :
  ~ In d done -> list_remove d (done ++ d :: rest) = done ++ rest.
Proof.
  induction done as [|x done IH]; intros Hn; simpl.
  - now rewrite String.eqb_refl.
  - destruct (String.eqb x d) eqn:E.
    + apply String.eqb_eq in E. subst. exfalso. apply Hn. now left.
    + rewrite IH; [reflexivity|]. intros H. apply Hn. now right.
Qed.

Lemma nth_error_middle (done rest : list string) :
  nth_error (done ++ rest) (List.length done) = nth_error rest 0.
Proof. induction done as [|x done IH]; [reflexivity|exact IH]. Qed.

(** The list the loop leaves, when no name is repeated in it. *)
Lemma sub_directories_loop_final (p : string -> bool) (fuel : nat) :
  forall done rest : list string,
    NoDup (done ++ rest) ->
    List.length rest <= fuel ->
    snd (sub_directories_loop fuel p (List.length done) (done ++ rest))
    = done ++ keep p false rest.
Proof.
  induction fuel as [|fuel IH]; intros done rest Hnd Hlen.
  - destruct rest; [reflexivity|simpl in Hlen; lia].
  - cbn [sub_directories_loop]. rewrite nth_error_middle.
    destruct rest as [|d rest]; [reflexivity|]. cbn [nth_error keep].
    pose proof (NoDup_remove_2 _ _ _ Hnd) as Hd.
    destruct (p d) eqn:Pd.
    + rewrite list_remove_middle
        by (intros H; apply Hd; apply in_or_app; now left).
      pose proof (NoDup_remove_1 _ _ _ Hnd) as Hnd'.
      destruct rest as [|x rest].
      * rewrite app_nil_r.
        assert (Hn : nth_error done (S (List.length done)) = None)
          by (apply nth_error_None; lia).
        destruct (sub_directories_loop fuel p (S (List.length done)) done)
          as [calls final] eqn:L.
        destruct fuel; cbn [sub_directories_loop] in L; [|rewrite Hn in L];
          injection L as <- <-; cbn [snd keep]; now rewrite app_nil_r.
      * specialize (IH (done ++ [x]) rest).
        rewrite <- app_assoc, length_app, Nat.add_comm in IH.
        cbn [List.length Nat.add app] in IH.
        destruct (sub_directories_loop fuel p (S (List.length done))
                                       (done ++ x :: rest)) as [calls final].
        cbn [snd] in *. cbn [keep]. rewrite IH; [|exact Hnd'|simpl in Hlen; lia].
        now rewrite <- app_assoc.
    + specialize (IH (done ++ [d]) rest).
      rewrite <- app_assoc, length_app, Nat.add_comm in IH.
      cbn [List.length Nat.add app] in IH.
      destruct (sub_directories_loop fuel p (S (List.length done))
                                     (done ++ d :: rest)) as [calls final].
      cbn [snd] in *. rewrite IH; [|exact Hnd|simpl in Hlen; lia].
      now rewrite <- app_assoc.
Qed.

Lemma prune_final (p : string -> bool) (l : list string) :
  NoDup l -> snd (prune p l) = keep p false l.
Proof.
  intros H. unfold prune.
  exact (sub_directories_loop_final p (List.length l) [] l H (le_n _)).
Qed.

Lemma keep_In (p : string -> bool) (l : list string) :
  forall skip d, In d (keep p skip l) -> In d l.
Proof.
  induction l as [|x rest IH]; intros skip d; simpl; [tauto|].
  destruct skip; [|destruct (p x)].
  - intros [H|H]; [now left|right; exact (IH _ _ H)].
  - intros H. right. exact (IH _ _ H).
  - intros [H|H]; [now left|right; exact (IH _ _ H)].
Qed.

(** ** The walk *)

Lemma node_induction (P : node -> Prop) :
  P File ->
  (forall entries, Forall (fun e => P (snd e)) entries -> P (Dir entries)) ->
  forall n, P n.
Proof.
  intros HF HD. fix IH 1. intros [|entries]; [exact HF|].
  apply HD. induction entries as [|[name sub] es IHes]; constructor.
  - apply IH.
  - exact IHes.
Qed.

(** The walk of a directory, one level unfolded. *)
Lemma walk_Dir (p : string -> bool) (top : string)
      (entries : list (string * node)) :
  walk p top (Dir entries)
  = level_events p top entries
    ++ flat_map (fun d => match lookup d entries with
                          | Some sub => walk p (posixpath.join top d) sub
                          | None => []
                          end)
                (snd (prune p (dirnames entries))).
Proof.
  unfold level_events. cbn [walk].
  destruct (prune p (dirnames entries)) as [calls dirs']. cbn [fst snd].
  rewrite <- app_comm_cons, <- app_assoc. do 3 f_equal.
  apply flat_map_ext. intros d.
  induction entries as [|[name sub] es IH]; [reflexivity|].
  cbn [descend lookup]. destruct (String.eqb name d) eqn:E.
  - apply String.eqb_eq in E. now subst.
  - exact IH.
Qed.

Lemma lookup_In (d : string) (entries : list (string * node)) (sub : node) :
  lookup d entries = Some sub -> In (d, sub) entries.
Proof.
  induction entries as [|[name n] es IH]; simpl; [discriminate|].
  destruct (String.eqb name d) eqn:E.
  - apply String.eqb_eq in E. intros [= ->]. left. now subst.
  - intros H. right. now apply IH.
Qed.

(** Every event of a walk belongs to the level of a visited directory. *)
Lemma walk_events (p : string -> bool) (n : node) :
  forall top e,
    In e (walk p top n) ->
    exists cur es, visits p top n cur es /\ In e (level_events p cur es).
Proof.
  induction n as [|entries IH] using node_induction; intros top e He.
  - destruct He.
  - rewrite walk_Dir in He. apply in_app_or in He as [He|He].
    + exists top, entries. split; [constructor|exact He].
    + apply in_flat_map in He as (d & Hd & He).
      destruct (lookup d entries) as [sub|] eqn:L; [|destruct He].
      rewrite Forall_forall in IH.
      destruct (IH (d, sub) (lookup_In _ _ _ L) _ _ He) as (cur & es & Hv & Hin).
      exists cur, es. split; [|exact Hin].
      now apply visits_below with (d := d) (sub := sub).
Qed.

(** Conversely the level of a visited directory is a contiguous block of
    the walk. *)
Lemma visits_block (p : string -> bool) (top : string) (n : node)
      (cur : string) (es : list (string * node)) :
  visits p top n cur es ->
  exists pre post, walk p top n = pre ++ level_events p cur es ++ post.
Proof.
  induction 1 as [top entries|top entries d sub cur es Hd L _ (pre & post & IH)].
  - exists [], (flat_map (fun d => match lookup d entries with
                                   | Some sub => walk p (posixpath.join top d) sub
                                   | None => []
                                   end)
                         (snd (prune p (dirnames entries)))).
    now rewrite walk_Dir.
  - apply in_split in Hd as (l1 & l2 & Hd).
    rewrite walk_Dir, Hd, flat_map_app. cbn [flat_map]. rewrite L, IH.
    set (g := fun d => match lookup d entries with
                       | Some sub => walk p (posixpath.join top d) sub
                       | None => []
                       end).
    exists (level_events p top entries ++ flat_map g l1 ++ pre),
           (post ++ flat_map g l2).
    rewrite <- !app_assoc. reflexivity.
Qed.

Lemma visits_In (p : string -> bool) (top : string) (n : node)
      (cur : string) (es : list (string * node)) (e : event) :
  visits p top n cur es -> In e (level_events p cur es) -> In e (walk p top n).
Proof.
  intros Hv He. destruct (visits_block p top n cur es Hv) as (pre & post & ->).
  apply in_or_app. right. apply in_or_app. now left.
Qed.

Lemma files_loop_no_Listed (p : string -> bool) (root : string)
      (files : list string) (c : string) (d f : list string) :
  ~ In (Listed c d f) (files_loop p root files).
Proof.
  induction files as [|x rest IH]; simpl; [tauto|].
  intros H. apply in_app_or in H as [H|H]; [|tauto].
  destruct (p x); [|destruct (p (posixpath.join root x))];
    simpl in H; intuition discriminate.
Qed.

Lemma sub_directories_loop_only_Called (p : string -> bool) (fuel : nat) :
  forall i l e,
    In e (fst (sub_directories_loop fuel p i l)) -> exists d, e = Called d.
Proof.
  induction fuel as [|fuel IH]; intros i l e; simpl; [tauto|].
  destruct (nth_error l i) as [d|]; [|simpl; tauto].
  destruct (sub_directories_loop fuel p (S i) (if p d then list_remove d l else l))
    as [calls final] eqn:L.
  simpl. intros [<-|H]; [now exists d|].
  apply (IH (S i) (if p d then list_remove d l else l)). now rewrite L.
Qed.

(** A triple in the trace is the triple of a visited directory. *)
Lemma Listed_visits (p : string -> bool) (top : string) (n : node)
      (cur : string) (dirs files : list string) :
  In (Listed cur dirs files) (walk p top n) ->
  exists es, visits p top n cur es
             /\ dirs = dirnames es /\ files = nondirnames es.
Proof.
  intros H. apply walk_events in H as (cur' & es & Hv & Hin).
  unfold level_events in Hin. destruct Hin as [Hin|Hin].
  - injection Hin as <- <- <-. now exists es.
  - apply in_app_or in Hin as [Hin|Hin].
    + now apply files_loop_no_Listed in Hin.
    + apply sub_directories_loop_only_Called in Hin as [d Hd]. discriminate.
Qed.

(** ** Projections of a trace *)

Lemma yielded_app (a b : list event) : yielded (a ++ b) = yielded a ++ yielded b.
Proof.
  induction a as [|[| |y] a IH]; simpl; try exact IH; [reflexivity|now rewrite IH].
Qed.

Lemma called_app (a b : list event) : called (a ++ b) = called a ++ called b.
Proof.
  induction a as [|[|x|] a IH]; simpl; try exact IH; [reflexivity|now rewrite IH].
Qed.

Lemma listed_app (a b : list event) : listed (a ++ b) = listed a ++ listed b.
Proof.
  induction a as [|[t ? ?| |] a IH]; simpl; try exact IH;
    [reflexivity|now rewrite IH].
Qed.

Lemma In_yielded (evs : list event) (y : string) :
  In y (yielded evs) <-> In (Yielded y) evs.
Proof.
  induction evs as [|[| |z] evs IH]; simpl; [tauto| | |].
  - rewrite IH. intuition discriminate.
  - rewrite IH. intuition discriminate.
  - rewrite IH. split; intros [H|H]; auto; left; congruence.
Qed.

Lemma In_called (evs : list event) (x : string) :
  In x (called evs) <-> In (Called x) evs.
Proof.
  induction evs as [|[|z|] evs IH]; simpl; [tauto| | |].
  - rewrite IH. intuition discriminate.
  - rewrite IH. split; intros [H|H]; auto; left; congruence.
  - rewrite IH. intuition discriminate.
Qed.

Lemma In_listed (evs : list event) (t : string) :
  In t (listed evs) <-> exists dirs files, In (Listed t dirs files) evs.
Proof.
  induction evs as [|[t' d f|z|z] evs IH]; simpl.
  - split; [tauto|]. now intros (? & ? & ?).
  - rewrite IH. split.
    + intros [<-|(d' & f' & H)]; [exists d, f; now left|exists d', f'; now right].
    + intros (d' & f' & [H|H]); [left; congruence|right; now exists d', f'].
  - rewrite IH. split; intros (d' & f' & H); exists d', f'; intuition discriminate.
  - rewrite IH. split; intros (d' & f' & H); exists d', f'; intuition discriminate.
Qed.

(** ** The loop over the files *)

Lemma files_loop_called (p : string -> bool) (root : string)
      (files : list string) :
  called (files_loop p root files)
  = flat_map (fun f => if p f then [f] else [f; posixpath.join root f]) files.
Proof.
  induction files as [|f rest IH]; [reflexivity|].
  cbn [files_loop flat_map]. rewrite called_app, IH. f_equal.
  destruct (p f); [|destruct (p (posixpath.join root f))]; reflexivity.
Qed.

Lemma files_loop_yielded (p : string -> bool) (root : string)
      (files : list string) :
  yielded (files_loop p root files)
  = map (posixpath.join root)
        (filter (fun f => negb (p f) && negb (p (posixpath.join root f))) files).
Proof.
  induction files as [|f rest IH]; [reflexivity|].
  cbn [files_loop filter]. rewrite yielded_app, IH.
  destruct (p f); [|destruct (p (posixpath.join root f))]; reflexivity.
Qed.

Lemma files_loop_In_yielded (p : string -> bool) (root : string)
      (files : list string) (y : string) :
  In y (yielded (files_loop p root files))
  <-> exists f, In f files /\ y = posixpath.join root f
                /\ p f = false /\ p y = false.
Proof.
  rewrite files_loop_yielded, in_map_iff. split.
  - intros (f & <- & Hf). apply filter_In in Hf as [Hin Hp].
    apply andb_true_iff in Hp as [H1 H2].
    apply negb_true_iff in H1, H2. now exists f.
  - intros (f & Hin & -> & H1 & H2). exists f. split; [reflexivity|].
    apply filter_In. split; [exact Hin|]. now rewrite H1, H2.
Qed.

Lemma prune_yielded (p : string -> bool) (dirs : list string) :
  yielded (fst (prune p dirs)) = [].
Proof.
  destruct (yielded (fst (prune p dirs))) as [|y ys] eqn:E; [reflexivity|].
  assert (H : In y (yielded (fst (prune p dirs)))) by (rewrite E; now left).
  apply In_yielded in H.
  apply sub_directories_loop_only_Called in H as [d Hd]. discriminate.
Qed.

(** ** The calls of the loop over the sub-directories *)

Lemma scan_In (p : string -> bool) (l : list string) :
  forall skip d, In d (scan p skip l) -> In d l.
Proof.
  induction l as [|x rest IH]; intros skip d; simpl; [tauto|].
  destruct skip.
  - intros H. right. exact (IH _ _ H).
  - intros [H|H]; [now left|right; exact (IH _ _ H)].
Qed.

Lemma scan_count (p : string -> bool) (l : list string) (d : string) :
  forall skip,
    count_occ string_dec (scan p skip l) d <= count_occ string_dec l d.
Proof.
  induction l as [|x rest IH]; intros skip; simpl; [lia|].
  destruct skip.
  - specialize (IH false). destruct (string_dec x d); lia.
  - simpl. specialize (IH (p x)). destruct (string_dec x d); lia.
Qed.

Lemma scan_nothing_excluded (p : string -> bool) (l : list string) :
  (forall d, In d l -> p d = false) -> scan p false l = l.
Proof.
  induction l as [|x rest IH]; intros H; simpl; [reflexivity|].
  rewrite (H x (or_introl eq_refl)), IH; [reflexivity|].
  intros d Hd. apply H. now right.
Qed.

(** In a listing without repeated names, a sub-directory that the
    predicate was asked about and excluded is gone from the list before the
    walk resumes: whatever excluded name survives was never queried. *)
Lemma keep_excluded_not_queried (p : string -> bool) (l : list string) :
  NoDup l ->
  forall skip d,
    In d (keep p skip l) -> p d = true -> ~ In d (scan p skip l).
Proof.
  induction 1 as [|x rest Hx Hnd IH]; intros skip d Hk Hp; simpl in *; [tauto|].
  destruct skip.
  - destruct Hk as [<-|Hk].
    + intros H. apply Hx. exact (scan_In _ _ _ _ H).
    + exact (IH _ _ Hk Hp).
  - destruct (p x) eqn:Px.
    + intros [->|H].
      * apply Hx. exact (keep_In _ _ _ _ Hk).
      * exact (IH _ _ Hk Hp H).
    + destruct Hk as [<-|Hk]; [congruence|].
      intros [->|H].
      * apply Hx. exact (keep_In _ _ _ _ Hk).
      * exact (IH _ _ Hk Hp H).
Qed.

Lemma prune_queried_excluded_removed (p : string -> bool) (dirs : list string)
      (d : string) :
  NoDup dirs ->
  In d (called (fst (prune p dirs))) -> p d = true ->
  ~ In d (snd (prune p dirs)).
Proof.
  intros Hnd Hc Hp Hin. rewrite prune_called in Hc.
  rewrite (prune_final p dirs Hnd) in Hin.
  exact (keep_excluded_not_queried p dirs Hnd false d Hin Hp Hc).
Qed.

(** ** Entry names *)

Lemma names_ok_In (entries : list (string * node)) (name : string) (sub : node) :
  names_ok (Dir entries) = true ->
  In (name, sub) entries ->
  pystr.contains posixpath.sep name = false /\ names_ok sub = true.
Proof.
  cbn [names_ok].
  induction entries as [|[x n] es IH]; intros Hok Hin; [destruct Hin|].
  apply andb_true_iff in Hok as [Hok Hes].
  apply andb_true_iff in Hok as [Hx Hn].
  destruct Hin as [Hin|Hin].
  - injection Hin as <- <-. split; [now apply negb_true_iff|exact Hn].
  - exact (IH Hes Hin).
Qed.

Lemma nondirnames_In (entries : list (string * node)) (f : string) :
  In f (nondirnames entries) -> exists sub, In (f, sub) entries.
Proof.
  induction entries as [|[x n] es IH]; simpl; [tauto|].
  destruct (is_dir n).
  - intros H. destruct (IH H) as [sub Hs]. exists sub. now right.
  - intros [<-|H]; [exists n; now left|].
    destruct (IH H) as [sub Hs]. exists sub. now right.
Qed.

Lemma dirnames_In (entries : list (string * node)) (d : string) :
  In d (dirnames entries) -> exists sub, In (d, sub) entries.
Proof.
  induction entries as [|[x n] es IH]; simpl; [tauto|].
  destruct (is_dir n).
  - intros [<-|H]; [exists n; now left|].
    destruct (IH H) as [sub Hs]. exists sub. now right.
  - intros H. destruct (IH H) as [sub Hs]. exists sub. now right.
Qed.

Lemma visits_names_ok (p : string -> bool) (top : string) (n : node)
      (cur : string) (es : list (string * node)) :
  visits p top n cur es -> names_ok n = true -> names_ok (Dir es) = true.
Proof.
  induction 1 as [top entries|top entries d sub cur es _ L _ IH]; intros Hok.
  - exact Hok.
  - apply IH. exact (proj2 (names_ok_In entries d sub Hok (lookup_In _ _ _ L))).
Qed.

(** ** [os.path.join] and the last component *)

Module join_facts.
Import pystr pystr_facts.
Local Open Scope string_scope.

Lemma append_assoc' (a b c : string) : (a ++ b) ++ c = a ++ (b ++ c).
Proof. induction a as [|x a IH]; simpl; [reflexivity|now rewrite IH]. Qed.

Lemma split_app_cons (sep : ascii) (x r : string) :
  split sep (x ++ String sep r) = (split sep x ++ split sep r)%list.
Proof.
  induction x as [|a x IH]; simpl.
  - now rewrite Ascii.eqb_refl.
  - destruct (Ascii.eqb a sep); [now rewrite IH|].
    rewrite IH. pose proof (split_not_nil sep x) as Hn.
    destruct (split sep x); [congruence|reflexivity].
Qed.

Lemma last_app_not_nil (l1 l2 : list string) (d : string) :
  l2 <> [] -> last (l1 ++ l2)%list d = last l2 d.
Proof.
  intros Hn. induction l1 as [|x l1 IH]; [reflexivity|].
  simpl. destruct (l1 ++ l2)%list eqn:E; [|exact IH].
  apply app_eq_nil in E as [_ E]. congruence.
Qed.

Lemma endswith_char_inv (c : ascii) (s : string) :
  endswith_char c s = true -> exists y, s = y ++ String c "".
Proof.
  unfold endswith_char. induction s as [|a r IH]; simpl; [discriminate|].
  destruct r as [|b r'].
  - intros H. apply Ascii.eqb_eq in H. subst. now exists "".
  - intros H. destruct (IH H) as [y Hy]. exists (String a y).
    simpl. now rewrite <- Hy.
Qed.

Lemma basename_after_sep (x f : string) :
  contains posixpath.sep f = false ->
  basename (x ++ String posixpath.sep f) = f.
Proof.
  intros Hf. unfold basename.
  rewrite split_app_cons, last_app_not_nil by apply split_not_nil.
  now rewrite (split_without_sep _ _ Hf).
Qed.

(** The name joined last is the last component of the joined path. *)
Lemma join_basename (cur f : string) :
  contains posixpath.sep f = false ->
  basename (posixpath.join cur f) = f.
Proof.
  intros Hf. unfold posixpath.join.
  assert (Hs : startswith_char posixpath.sep f = false).
  { destruct f as [|a f]; [reflexivity|]. simpl in *.
    now apply orb_false_elim in Hf. }
  rewrite Hs.
  destruct cur as [|a cur].
  - simpl. unfold basename. now rewrite (split_without_sep _ _ Hf).
  - cbn [is_empty orb].
    destruct (endswith_char posixpath.sep (String a cur)) eqn:E.
    + apply endswith_char_inv in E as [y ->].
      rewrite append_assoc'. now apply basename_after_sep.
    + now apply basename_after_sep.
Qed.

End join_facts.

(** ** [filenames_from] *)

Lemma filenames_from_default (fs : string -> option node) (arg : string) :
  filenames_from fs arg None = filenames_from fs arg (Some _default_predicate).
Proof. reflexivity. Qed.

Lemma filenames_from_Dir (fs : string -> option node) (arg : string)
      (p : string -> bool) (entries : list (string * node)) :
  fs arg = Some (Dir entries) ->
  filenames_from fs arg (Some p) = walk p arg (Dir entries).
Proof. intros H. unfold filenames_from. now rewrite H. Qed.

Lemma level_Yielded (p : string -> bool) (cur : string)
      (es : list (string * node)) (y : string) :
  In (Yielded y) (level_events p cur es)
  <-> exists f, In f (nondirnames es) /\ y = posixpath.join cur f
                /\ p f = false /\ p y = false.
Proof.
  rewrite <- files_loop_In_yielded, In_yielded. unfold level_events. split.
  - intros [H|H]; [discriminate|].
    apply in_app_or in H as [H|H]; [exact H|].
    apply sub_directories_loop_only_Called in H as [d Hd]. discriminate.
  - intros H. right. apply in_or_app. now left.
Qed.

Lemma level_Called (p : string -> bool) (cur : string)
      (es : list (string * node)) (a : string) :
  In (Called a) (level_events p cur es) ->
  In a (nondirnames es)
  \/ (exists f, In f (nondirnames es) /\ a = posixpath.join cur f)
  \/ In a (dirnames es).
Proof.
  unfold level_events. intros [H|H]; [discriminate|].
  apply in_app_or in H as [H|H].
  - apply In_called in H. rewrite files_loop_called in H.
    apply in_flat_map in H as (f & Hf & H).
    destruct (p f); simpl in H.
    + destruct H as [<-|[]]. now left.
    + destruct H as [<-|[<-|[]]]; [now left|right; left; now exists f].
  - apply In_called in H. rewrite prune_called in H.
    right. right. exact (scan_In _ _ _ _ H).
Qed.

Lemma visited_file_name (p : string -> bool) (top : string) (n : node)
      (cur : string) (es : list (string * node)) (f : string) :
  names_ok n = true -> visits p top n cur es -> In f (nondirnames es) ->
  pystr.contains posixpath.sep f = false.
Proof.
  intros Hok Hv Hf. apply nondirnames_In in Hf as [sub Hs].
  exact (proj1 (names_ok_In es f sub (visits_names_ok p top n cur es Hv Hok) Hs)).
Qed.

(** C2: in the traversal of a directory, a file [f] listed in a visited
    directory [cur] has its joined path yielded exactly when the predicate
    rejects neither [f] nor the joined path; the paths yielded for a level
    are the joined paths of the files kept, in listing order; and nothing
    but such joined paths is ever yielded.  Entry names hold no separator,
    as in any directory listing. *)
Theorem filenames_from_yields_joined (fs : string -> option node)
        (arg : string) (p : string -> bool) (entries : list (string * node)) :
  fs arg = Some (Dir entries) ->
  names_ok (Dir entries) = true ->
  let evs := filenames_from fs arg (Some p) in
  (forall cur dirs files f,
      In (Listed cur dirs files) evs -> In f files ->
      (In (posixpath.join cur f) (yielded evs)
       <-> p f = false /\ p (posixpath.join cur f) = false))
  /\ (forall cur dirs files,
         In (Listed cur dirs files) evs ->
         exists pre post,
           evs = pre ++ Listed cur dirs files :: files_loop p cur files ++ post
           /\ yielded (files_loop p cur files)
              = map (posixpath.join cur)
                    (filter (fun f => negb (p f)
                                      && negb (p (posixpath.join cur f)))
                            files))
  /\ (forall y,
         In y (yielded evs) ->
         exists cur dirs files f,
           In (Listed cur dirs files) evs /\ In f files
           /\ y = posixpath.join cur f).
Proof.
  intros Hfs Hok evs. subst evs. rewrite (filenames_from_Dir fs arg p entries Hfs).
  split; [|split].
  - intros cur dirs files f H Hf.
    apply Listed_visits in H as (es & Hv & -> & ->). split.
    + intros Hy. apply In_yielded in Hy.
      apply walk_events in Hy as (cur' & es' & Hv' & Hin).
      apply level_Yielded in Hin as (f' & Hf' & Hj & Hp1 & Hp2).
      assert (E : f = f').
      { rewrite <- (join_facts.join_basename cur f),
                <- (join_facts.join_basename cur' f'), Hj; [reflexivity| |].
        - exact (visited_file_name p arg _ cur' es' f' Hok Hv' Hf').
        - exact (visited_file_name p arg _ cur es f Hok Hv Hf). }
      subst f'. now split.
    + intros [Hp1 Hp2]. apply In_yielded.
      apply (visits_In p arg _ cur es _ Hv).
      apply level_Yielded. now exists f.
  - intros cur dirs files H.
    apply Listed_visits in H as (es & Hv & -> & ->).
    destruct (visits_block p arg _ cur es Hv) as (pre & post & E).
    exists pre, (fst (prune p (dirnames es)) ++ post). split.
    + rewrite E. unfold level_events.
      rewrite <- app_comm_cons, <- app_assoc. reflexivity.
    + apply files_loop_yielded.
  - intros y Hy. apply In_yielded in Hy.
    apply walk_events in Hy as (cur & es & Hv & Hin).
    apply level_Yielded in Hin as (f & Hf & Hj & _).
    exists cur, (dirnames es), (nondirnames es), f. repeat split; try assumption.
    apply (visits_In p arg _ cur es _ Hv). now left.
Qed.

Ltac in_list := vm_compute; repeat (try (left; reflexivity); right).

Lemma filenames_from_yields_joined_witness :
  In "root/keep_dir/x.py"
     (yielded (filenames_from (mount "root" spec_tree) "root"
                              (Some exclude_skip_dir))).
Proof.
  destruct (filenames_from_yields_joined
              (mount "root" spec_tree) "root" exclude_skip_dir spec_entries
              eq_refl eq_refl) as [H _].
  apply (H "root/keep_dir" [] ["x.py"] "x.py").
  - in_list.
  - now left.
  - split; reflexivity.
Defined.

(** The specification's pruning example: one excluded directory between
    kept entries is queried once, removed, and never listed. *)
Example spec_pruning_example :
  let evs := filenames_from (mount "root" spec_tree) "root"
                            (Some exclude_skip_dir) in
  yielded evs = ["root/keep.py"; "root/keep_dir/x.py"]
  /\ listed evs = ["root"; "root/keep_dir"]
  /\ count_occ string_dec (called evs) "skip_dir" = 1.
Proof. repeat split. Qed.

(** C1 (the code departs from it): with two excluded names adjacent in a
    listing, removing the first one from the list being iterated makes the
    loop pass over the second; it stays in [sub_directories], [os.walk]
    descends into it and a file below it is yielded. *)
Theorem filenames_from_descends_into_excluded :
  let evs := filenames_from (mount "root" adjacent_tree) "root"
                            (Some exclude_a_b) in
  exclude_a_b "a" = true /\ exclude_a_b "b" = true
  /\ In (Listed "root" ["a"; "b"] []) evs
  /\ prune exclude_a_b ["a"; "b"] = ([Called "a"], ["b"])
  /\ In (Listed "root/b" [] ["inner.py"]) evs
  /\ In "root/b/inner.py" (yielded evs)
  /\ ~ excluded_never_listed exclude_a_b evs.
Proof.
  repeat split; try in_list.
  intros H.
  apply (H "root" ["a"; "b"] [] "b"); try in_list. reflexivity.
Qed.

(** With nothing removed the loop queries every sub-directory, and all of
    them are descended into. *)
Lemma prune_nothing_excluded (p : string -> bool) (dirs : list string) :
  (forall d, In d dirs -> p d = false) ->
  called (fst (prune p dirs)) = dirs.
Proof. intros H. rewrite prune_called. now apply scan_nothing_excluded. Qed.

(** C4, as stated, fails: when the predicate accepts the bare name of a
    file, [or] does not evaluate its second operand and the joined path is
    never queried. *)
Lemma second_shape_not_always_checked :
  ~ both_shapes_checked
      (filenames_from (mount "r" one_file_tree) "r" (Some exclude_all)).
Proof.
  intros H.
  destruct (H "r" [] ["f.py"] "f.py") as [_ Hj]; [in_list|now left|].
  vm_compute in Hj. destruct Hj as [Hj|[]]. discriminate.
Qed.

Example adjacent_directory_not_queried :
  called (filenames_from (mount "root" adjacent_tree) "root" (Some exclude_a_b))
  = ["a"; "inner.py"; "root/b/inner.py"].
Proof. reflexivity. Qed.

(** C4 (amended): at every visited directory the trace continues with the
    loop over the files and then the loop over the sub-directories; for a
    file the predicate is called with the bare name and, only if that
    answers false, with the joined path; for sub-directories it is called
    with bare names of the listing only, no more often than a name is
    listed, and once for each, in order, when none is excluded; and every
    call of the traversal is one of these. *)
Theorem predicate_calls_by_level (fs : string -> option node) (arg : string)
        (p : string -> bool) (entries : list (string * node)) :
  fs arg = Some (Dir entries) ->
  let evs := filenames_from fs arg (Some p) in
  (forall cur dirs files,
      In (Listed cur dirs files) evs ->
      exists pre post,
        evs = pre ++ Listed cur dirs files
                  :: files_loop p cur files ++ fst (prune p dirs) ++ post
        /\ called (files_loop p cur files)
           = flat_map (fun f => if p f then [f]
                                else [f; posixpath.join cur f]) files
        /\ (forall d, In d (called (fst (prune p dirs))) -> In d dirs)
        /\ (forall d, count_occ string_dec (called (fst (prune p dirs))) d
                      <= count_occ string_dec dirs d)
        /\ ((forall d, In d dirs -> p d = false) ->
            called (fst (prune p dirs)) = dirs))
  /\ (forall a,
         In a (called evs) ->
         exists cur dirs files,
           In (Listed cur dirs files) evs
           /\ (In a files
               \/ (exists f, In f files /\ a = posixpath.join cur f)
               \/ In a dirs)).
Proof.
  intros Hfs evs. subst evs. rewrite (filenames_from_Dir fs arg p entries Hfs).
  split.
  - intros cur dirs files H.
    apply Listed_visits in H as (es & Hv & -> & ->).
    destruct (visits_block p arg _ cur es Hv) as (pre & post & E).
    exists pre, post. split; [|split; [|split; [|split]]].
    + rewrite E. unfold level_events.
      rewrite <- app_comm_cons, <- !app_assoc. reflexivity.
    + apply files_loop_called.
    + intros d Hd. rewrite prune_called in Hd. exact (scan_In _ _ _ _ Hd).
    + intros d. rewrite prune_called. apply scan_count.
    + exact (prune_nothing_excluded p (dirnames es)).
  - intros a Ha. apply In_called in Ha.
    apply walk_events in Ha as (cur & es & Hv & Hin).
    exists cur, (dirnames es), (nondirnames es). split.
    + apply (visits_In p arg _ cur es _ Hv). now left.
    + exact (level_Called p cur es a Hin).
Qed.

Lemma predicate_calls_by_level_witness :
  called (files_loop exclude_skip_dir "root" ["keep.py"])
  = ["keep.py"; "root/keep.py"].
Proof.
  destruct (predicate_calls_by_level
              (mount "root" spec_tree) "root" exclude_skip_dir spec_entries
              eq_refl) as [H _].
  destruct (H "root" ["skip_dir"; "keep_dir"] ["keep.py"]) as (pre & post & _ & Hc & _).
  - in_list.
  - rewrite Hc. reflexivity.
Defined.

(** C10: when [arg] is not a directory (a file, or nothing at all), the
    generator yields [arg] once and nothing else, and the predicate is not
    called. *)
Theorem filenames_from_not_a_directory (fs : string -> option node)
        (arg : string) (predicate : option (string -> bool)) :
  os_path_isdir (fs arg) = false ->
  filenames_from fs arg predicate = [Yielded arg]
  /\ yielded (filenames_from fs arg predicate) = [arg]
  /\ called (filenames_from fs arg predicate) = []
  /\ listed (filenames_from fs arg predicate) = [].
Proof.
  intros H. unfold filenames_from. rewrite H. repeat split.
Qed.

Lemma filenames_from_not_a_directory_witness :
  yielded (filenames_from (mount "single_file.py" File) "single_file.py"
                          (Some exclude_all)) = ["single_file.py"]
  /\ yielded (filenames_from (mount "root" spec_tree) "missing" None)
     = ["missing"].
Proof.
  split.
  - apply (filenames_from_not_a_directory
             (mount "single_file.py" File) "single_file.py" (Some exclude_all)).
    reflexivity.
  - apply (filenames_from_not_a_directory (mount "root" spec_tree) "missing" None).
    reflexivity.
Defined.

(** ** [fnmatch] *)

Example glob_examples :
  glob.fnmatch "a.py" "*.py" = true
  /\ glob.fnmatch "a.txt" "*.py" = false
  /\ glob.fnmatch "abc" "a[!x-z]?" = true
  /\ glob.fnmatch "a]" "a[]]" = true
  /\ glob.fnmatch "ab" "a[" = false
  /\ glob.fnmatch "a[" "a[" = true.
Proof. repeat split. Qed.

Lemma glob_star (name : string) : glob.fnmatch name "*" = true.
Proof. unfold glob.fnmatch. simpl. induction name as [|a r IH]; simpl; auto. Qed.

Lemma glob_question (name : string) :
  glob.fnmatch name "?" = true <-> String.length name = 1.
Proof.
  unfold glob.fnmatch. simpl. destruct name as [|a [|b r]]; simpl;
    split; intros H; try reflexivity; try discriminate.
Qed.

Example fnmatch_examples :
  fnmatch glob.fnmatch "a.py" [] true = true
  /\ fnmatch glob.fnmatch "a.py" [] false = false
  /\ fnmatch glob.fnmatch "a.py" ["*.py"] true = true
  /\ fnmatch glob.fnmatch "a.txt" ["*.py"] true = false.
Proof. repeat split. Qed.

(** C8: with no pattern the result is [default]; otherwise it is true
    exactly when the file name matches at least one of the patterns, and
    [default] plays no part; the function is defined on every input.  The
    matcher is any total shell-glob matcher. *)
Theorem fnmatch_spec (matcher : string -> string -> bool)
        (filename : string) (patterns : list string) (default : bool) :
  fnmatch matcher filename [] default = default
  /\ (patterns <> [] ->
      (fnmatch matcher filename patterns default = true
       <-> exists pattern, In pattern patterns
                           /\ matcher filename pattern = true))
  /\ (patterns <> [] ->
      fnmatch matcher filename patterns default
      = fnmatch matcher filename patterns (negb default))
  /\ exists b : bool, fnmatch matcher filename patterns default = b.
Proof.
  split; [reflexivity|]. split; [|split].
  - intros Hne. destruct patterns as [|x rest]; [congruence|].
    unfold fnmatch. apply existsb_exists.
  - intros Hne. destruct patterns as [|x rest]; [congruence|reflexivity].
  - eexists. reflexivity.
Qed.

Lemma fnmatch_spec_witness :
  fnmatch glob.fnmatch "a.py" ["*.txt"; "*.py"] false = true.
Proof.
  apply (proj1 (proj2 (fnmatch_spec glob.fnmatch "a.py" ["*.txt"; "*.py"] false))).
  - discriminate.
  - exists "*.py". split; [in_list|reflexivity].
Defined.

(* ================================================================== *)
(** * Further properties *)

(** ** Lists of values *)

Lemma strip_idempotent (s : string) : pystr.strip (pystr.strip s) = pystr.strip s.
Proof.
  unfold pystr.strip at 1.
  rewrite pystr_facts.lstrip_strip. apply pystr_facts.rstrip_strip.
Qed.

Lemma split_join_sep (sep : ascii) (l : list string) :
  l <> [] ->
  Forall (fun x => pystr.contains sep x = false) l ->
  pystr.split sep (pystr.join (String sep EmptyString) l) = l.
Proof.
  intros Hne H. induction H as [|x l Hx Hl IH]; [congruence|].
  destruct l as [|y l'].
  - simpl. now apply pystr_facts.split_without_sep.
  - change (pystr.join (String sep EmptyString) (x :: y :: l'))
      with (x ++ String sep (pystr.join (String sep EmptyString) (y :: l')))%string.
    rewrite join_facts.split_app_cons, IH by discriminate.
    now rewrite (pystr_facts.split_without_sep _ _ Hx).
Qed.

(** X1: parsing is idempotent: the list a call returns, given back as a
    list or as a tuple, is returned unchanged. *)
Theorem parse_comma_separated_list_idempotent (value : pyvalue) :
  parse_comma_separated_list (VList (parse_comma_separated_list value))
  = parse_comma_separated_list value
  /\ parse_comma_separated_list (VTuple (parse_comma_separated_list value))
     = parse_comma_separated_list value.
Proof.
  assert (H : exists l, parse_comma_separated_list value = map pystr.strip l).
  { unfold parse_comma_separated_list.
    destruct (negb (truthy value)); [now exists []|eexists; reflexivity]. }
  destruct H as [l ->].
  assert (H : map pystr.strip (map pystr.strip l) = map pystr.strip l).
  { rewrite map_map. apply map_ext. apply strip_idempotent. }
  unfold parse_comma_separated_list.
  destruct (map pystr.strip l) as [|x l'] eqn:E; [split; reflexivity|].
  cbn [truthy negb]. now split.
Qed.

(** X2: joining and parsing are inverse: a non-empty list of stripped,
    comma-free items, other than the list holding only the empty string,
    is what parsing its [","]-join returns. *)
Theorem parse_join_round_trip (items : list string) :
  items <> [] ->
  items <> [""%string] ->
  Forall (fun x => pystr.strip x = x /\ pystr.contains comma x = false) items ->
  parse_comma_separated_list (VStr (pystr.join "," items)) = items.
Proof.
  intros Hne Hne' H.
  assert (Hs : pystr.split comma (pystr.join "," items) = items).
  { apply split_join_sep; [exact Hne|].
    eapply Forall_impl; [|exact H]. now intros x [_ Hx]. }
  assert (Hj : pystr.join "," items <> ""%string).
  { destruct items as [|x [|y l]]; [congruence| |].
    - simpl. congruence.
    - change (pystr.join "," (x :: y :: l))
        with (x ++ String comma (pystr.join "," (y :: l)))%string.
      destruct x; discriminate. }
  unfold parse_comma_separated_list.
  destruct (pystr.join "," items) as [|a r] eqn:E; [congruence|].
  cbn [truthy pystr.is_empty negb]. rewrite Hs.
  rewrite <- (map_id items) at 2. apply map_ext_in.
  intros x Hx. rewrite Forall_forall in H. exact (proj1 (H x Hx)).
Qed.

Lemma parse_join_round_trip_witness :
  parse_comma_separated_list (VStr (pystr.join "," ["E501"; ""; "W6"%string]))
  = ["E501"; ""; "W6"%string].
Proof.
  apply parse_join_round_trip.
  - discriminate.
  - discriminate.
  - repeat constructor.
Defined.

(** ** Normalized paths *)

Lemma isabs_contains_sep (p : string) :
  posixpath.isabs p = true -> pystr.contains "/" p = true.
Proof.
  destruct p as [|a r]; [discriminate|].
  unfold posixpath.isabs, posixpath.sep. simpl. intros H. now rewrite H.
Qed.

(** X3: an absolute path is normalized without regard to the parent and to
    the working directory: the result is [normpath] of the path with its
    trailing separators stripped. *)
Theorem normalize_path_absolute_input (cwd cwd' parent parent' p : string) :
  posixpath.isabs p = true ->
  normalize_path cwd p parent
  = pystr.rstrip_char "/" (posixpath.normpath p)
  /\ normalize_path cwd p parent = normalize_path cwd' p parent'.
Proof.
  intros Habs.
  assert (H : forall c q, normalize_path c p q
                          = pystr.rstrip_char "/" (posixpath.normpath p)).
  { intros c q. unfold normalize_path, posixpath.abspath.
    now rewrite (isabs_contains_sep p Habs),
                (posixpath_facts.join_abs_right q p Habs), Habs. }
  split; [apply H|]. now rewrite !H.
Qed.

Lemma normalize_path_absolute_input_witness :
  normalize_path "/home/u" "/etc//x/" "."
  = normalize_path "/tmp" "/etc//x/" "sub/dir".
Proof.
  apply (normalize_path_absolute_input "/home/u" "/tmp" "." "sub/dir" "/etc//x/").
  reflexivity.
Defined.

Lemma shape_isabs (k : nat) (cs : list string) :
  k = 1 \/ k = 2 ->
  posixpath.isabs (posixpath.slashes_string k ++ pystr.join "/" cs)%string = true.
Proof. intros [-> | ->]; reflexivity. Qed.

(** X4: for a path with a separator, in a process whose working directory
    is absolute, the result is the empty string (the root, stripped) or an
    absolute path: one or two slashes, then components joined by single
    slashes, none of them empty, ["."] or [".."]. *)
Theorem normalize_path_result_absolute (cwd parent p : string) :
  posixpath.isabs cwd = true ->
  pystr.contains "/" p = true ->
  normalize_path cwd p parent = ""%string
  \/ (posixpath.isabs (normalize_path cwd p parent) = true
      /\ exists k cs,
           (k = 1 \/ k = 2) /\ cs <> [] /\ Forall posixpath.clean cs
           /\ normalize_path cwd p parent
              = (posixpath.slashes_string k ++ pystr.join "/" cs)%string).
Proof.
  intros Hcwd Hp.
  destruct (normalize_path_shape cwd parent p Hcwd Hp)
    as [H | (k & cs & Hk & Hne & Hcs & H)]; [now left|right].
  split.
  - rewrite H. now apply shape_isabs.
  - now exists k, cs.
Qed.

Lemma normalize_path_result_absolute_witness :
  posixpath.isabs (normalize_path "/home/u" "a/./b/../c/" "pkg") = true.
Proof.
  destruct (normalize_path_result_absolute "/home/u" "pkg" "a/./b/../c/"
              eq_refl eq_refl) as [H | [H _]].
  - discriminate H.
  - exact H.
Defined.

Lemma normalize_path_sep_isabs (cwd parent p : string) :
  posixpath.isabs cwd = true ->
  pystr.contains "/" (normalize_path cwd p parent) = true ->
  posixpath.isabs (normalize_path cwd p parent) = true.
Proof.
  intros Hcwd Hr. destruct (pystr.contains "/" p) eqn:Hp.
  - destruct (normalize_path_shape cwd parent p Hcwd Hp)
      as [H | (k & cs & Hk & _ & _ & H)].
    + rewrite H in Hr. discriminate.
    + rewrite H. now apply shape_isabs.
  - rewrite (normalize_path_bare cwd parent p Hp) in Hr. congruence.
Qed.

Lemma normalize_path_again (cwd parent p : string) :
  posixpath.isabs cwd = true ->
  normalize_path cwd (normalize_path cwd p parent) parent
  = normalize_path cwd p parent.
Proof.
  intros Hcwd. destruct (pystr.contains "/" p) eqn:Hp.
  - destruct (normalize_path_shape cwd parent p Hcwd Hp)
      as [-> | (k & cs & Hk & Hne & Hcs & ->)];
      [reflexivity|now apply normalize_path_fixed].
  - now rewrite !(normalize_path_bare cwd parent p Hp).
Qed.

Lemma normalize_path_no_trailing_sep (cwd parent p : string) :
  pystr.endswith_char "/" (normalize_path cwd p parent) = false.
Proof.
  unfold normalize_path, pystr.rstrip_char, pystr.endswith_char.
  match goal with
  | |- context [pystr.last_char (pystr.rstrip_by ?f ?s)] =>
      destruct (pystr.last_char (pystr.rstrip_by f s)) as [a|] eqn:E;
      [apply (posixpath_facts.rstrip_by_last f s a E)|reflexivity]
  end.
Qed.

(** X5: [normalize_paths] returns one path per parsed item, and each of
    them is in normal form: normalizing it again changes nothing, it does
    not end in a separator, and if it holds a separator it is absolute. *)
Theorem normalize_paths_normal_form (cwd parent : string) (paths : pyvalue) :
  posixpath.isabs cwd = true ->
  List.length (normalize_paths cwd paths parent)
  = List.length (parse_comma_separated_list paths)
  /\ Forall (fun r =>
               normalize_path cwd r parent = r
               /\ pystr.endswith_char "/" r = false
               /\ (pystr.contains "/" r = true -> posixpath.isabs r = true))
            (normalize_paths cwd paths parent).
Proof.
  intros Hcwd. unfold normalize_paths. split; [apply length_map|].
  apply Forall_forall. intros r Hr.
  apply in_map_iff in Hr as (p & <- & _). split; [|split].
  - now apply normalize_path_again.
  - apply normalize_path_no_trailing_sep.
  - now apply normalize_path_sep_isabs.
Qed.

Lemma normalize_paths_normal_form_witness :
  List.length (normalize_paths "/home/u" (VStr "a.py, sub/b.py/ ,/etc//x") ".")
  = 3.
Proof.
  rewrite (proj1 (normalize_paths_normal_form
                    "/home/u" "." (VStr "a.py, sub/b.py/ ,/etc//x") eq_refl)).
  reflexivity.
Defined.

(** ** The stdin marker *)

Lemma is_using_stdin_In (paths : list string) :
  is_using_stdin paths = true <-> In "-"%string paths.
Proof.
  unfold is_using_stdin. rewrite existsb_exists. split.
  - intros (x & Hx & E). apply String.eqb_eq in E. now subst.
  - intros H. exists "-"%string. split; [exact H|reflexivity].
Qed.

Lemma normalize_path_is_marker (cwd parent p : string) :
  posixpath.isabs cwd = true ->
  String.eqb "-" (normalize_path cwd p parent) = String.eqb "-" p.
Proof.
  intros Hcwd. destruct (pystr.contains "/" p) eqn:Hp.
  - assert (Hn : String.eqb "-" p = false).
    { apply String.eqb_neq. intros <-. discriminate. }
    rewrite Hn. apply String.eqb_neq. intros E.
    destruct (normalize_path_shape cwd parent p Hcwd Hp)
      as [H | (k & cs & Hk & _ & _ & H)].
    + rewrite H in E. discriminate.
    + pose proof (shape_isabs k cs Hk) as Ha. rewrite <- H, <- E in Ha.
      discriminate.
  - now rewrite (normalize_path_bare cwd parent p Hp).
Qed.

(** X6: [is_using_stdin] holds exactly of the lists that contain ["-"],
    and normalizing a list of paths neither loses the marker nor makes
    one: [is_using_stdin] gives the same answer on the normalized paths as
    on the parsed ones. *)
Theorem is_using_stdin_normalize_paths (cwd parent : string) (paths : pyvalue) :
  posixpath.isabs cwd = true ->
  (forall l, is_using_stdin l = true <-> In "-"%string l)
  /\ is_using_stdin (normalize_paths cwd paths parent)
     = is_using_stdin (parse_comma_separated_list paths).
Proof.
  intros Hcwd. split; [exact is_using_stdin_In|].
  unfold normalize_paths, is_using_stdin.
  induction (parse_comma_separated_list paths) as [|x l IH]; [reflexivity|].
  cbn [map existsb]. now rewrite IH, (normalize_path_is_marker cwd parent x Hcwd).
Qed.

Lemma is_using_stdin_normalize_paths_witness :
  is_using_stdin (normalize_paths "/home/u" (VStr "a/b.py, -") ".") = true.
Proof.
  rewrite (proj2 (is_using_stdin_normalize_paths
                    "/home/u" "." (VStr "a/b.py, -") eq_refl)).
  reflexivity.
Defined.

(** ** The cache of [stdin_get_value] *)

(** X7: however many calls a process makes, standard input is read exactly
    once, by the first call; that call raises, and each later call returns
    the whole piped input. *)
Theorem stdin_get_value_reads_once (n : nat) (input : string) :
  stdin_get_value_times (S n) (fresh_process input)
  = (Raise AttributeError :: repeat (Return input) n,
     {| stdin_pending := ""; stdin_reads := 1; cached_stdin := Some input |}).
Proof.
  cbn [stdin_get_value_times]. unfold stdin_get_value at 1.
  cbn [fresh_process cached_stdin sys_stdin_read getvalue stdin_pending
       stdin_reads].
  now rewrite (stdin_get_value_times_cached n _ input).
Qed.

(** X8: once the cache is filled, a call returns the cached text and leaves
    the process as it is: standard input is not read again, whatever is
    pending on it. *)
Theorem stdin_get_value_cache_hit (st : process) (text : string) (n : nat) :
  cached_stdin st = Some text ->
  stdin_get_value_times n st = (repeat (Return text) n, st)
  /\ stdin_reads (snd (stdin_get_value_times n st)) = stdin_reads st
  /\ stdin_pending (snd (stdin_get_value_times n st)) = stdin_pending st.
Proof.
  intros H. rewrite (stdin_get_value_times_cached n st text H). now repeat split.
Qed.

Lemma stdin_get_value_cache_hit_witness :
  stdin_get_value_times 2
    {| stdin_pending := "more"; stdin_reads := 1; cached_stdin := Some "x = 1" |}
  = ([Return "x = 1"%string; Return "x = 1"%string],
     {| stdin_pending := "more"; stdin_reads := 1; cached_stdin := Some "x = 1" |}).
Proof.
  apply (stdin_get_value_cache_hit
           {| stdin_pending := "more"; stdin_reads := 1;
              cached_stdin := Some "x = 1" |} "x = 1" 2).
  reflexivity.
Defined.

(** ** What a traversal yields *)

Lemma nondirnames_In_file (entries : list (string * node)) (f : string) :
  In f (nondirnames entries)
  <-> exists sub, In (f, sub) entries /\ is_dir sub = false.
Proof.
  induction entries as [|[x n] es IH]; simpl.
  - split; [tauto|]. now intros (? & [] & _).
  - destruct (is_dir n) eqn:E.
    + rewrite IH. split.
      * intros (sub & Hs & Hd). exists sub. split; [now right|exact Hd].
      * intros (sub & [Hs|Hs] & Hd); [|now exists sub].
        injection Hs as <- <-. congruence.
    + simpl. rewrite IH. split.
      * intros [<-|(sub & Hs & Hd)]; [exists n; split; [now left|exact E]|].
        exists sub. split; [now right|exact Hd].
      * intros (sub & [Hs|Hs] & Hd); [left; congruence|right; now exists sub].
Qed.

Lemma dirnames_In_dir (entries : list (string * node)) (d : string) (sub : node) :
  In (d, sub) entries -> is_dir sub = true -> In d (dirnames entries).
Proof.
  induction entries as [|[x n] es IH]; simpl; [tauto|].
  intros [H|H] Hd.
  - injection H as -> ->. rewrite Hd. now left.
  - destruct (is_dir n); [right|]; now apply IH.
Qed.

Lemma visits_file_at (p : string -> bool) (top : string) (n : node)
      (cur : string) (es : list (string * node)) (f : string) (sub : node) :
  visits p top n cur es -> In (f, sub) es -> is_dir sub = false ->
  file_at top n (posixpath.join cur f).
Proof.
  induction 1 as [top entries|top entries d sub' cur es _ L _ IH]; intros Hf Hd.
  - now apply file_here with (sub := sub).
  - apply file_below with (d := d) (sub := sub').
    + now apply lookup_In.
    + now apply IH.
Qed.



(** X10: whatever the predicate, a traversal of a directory yields only
    joined paths of files that are in the tree under it. *)
Theorem filenames_from_yields_files_of_tree (fs : string -> option node)
        (arg : string) (p : string -> bool) (entries : list (string * node))
        (y : string) :
  fs arg = Some (Dir entries) ->
  In y (yielded (filenames_from fs arg (Some p))) ->
  file_at arg (Dir entries) y.
Proof.
  intros Hfs Hy. rewrite (filenames_from_Dir fs arg p entries Hfs) in Hy.
  apply In_yielded in Hy. apply walk_events in Hy as (cur & es & Hv & Hin).
  apply level_Yielded in Hin as (f & Hf & -> & _).
  apply nondirnames_In_file in Hf as (sub & Hs & Hd).
  exact (visits_file_at p arg _ cur es f sub Hv Hs Hd).
Qed.

Lemma filenames_from_yields_files_of_tree_witness :
  file_at "root" spec_tree "root/keep_dir/x.py".
Proof.
  apply (filenames_from_yields_files_of_tree
           (mount "root" spec_tree) "root" exclude_skip_dir spec_entries
           "root/keep_dir/x.py" eq_refl).
  in_list.
Defined.

(** ** The default predicate *)

Lemma sub_directories_loop_keeps_all (p : string -> bool) (fuel : nat) :
  forall i l,
    (forall d, In d l -> p d = false) ->
    snd (sub_directories_loop fuel p i l) = l.
Proof.
  induction fuel as [|fuel IH]; intros i l H; [reflexivity|].
  cbn [sub_directories_loop].
  destruct (nth_error l i) as [d|] eqn:E; [|reflexivity].
  rewrite (H d (nth_error_In l i E)).
  specialize (IH (S i) l H).
  destruct (sub_directories_loop fuel p (S i) l) as [calls final].
  exact IH.
Qed.

Lemma prune_keeps_all (p : string -> bool) (dirs : list string) :
  (forall d, In d dirs -> p d = false) -> snd (prune p dirs) = dirs.
Proof. intros H. unfold prune. now apply sub_directories_loop_keeps_all. Qed.

Lemma lookup_unique (entries : list (string * node)) (d : string) (sub : node) :
  NoDup (map fst entries) -> In (d, sub) entries -> lookup d entries = Some sub.
Proof.
  induction entries as [|[x n] es IH]; simpl; intros Hnd Hin; [destruct Hin|].
  inversion Hnd as [|? ? Hx Hes]; subst.
  destruct Hin as [Hin|Hin].
  - injection Hin as -> ->. now rewrite String.eqb_refl.
  - destruct (String.eqb x d) eqn:E.
    + apply String.eqb_eq in E. subst x. exfalso. apply Hx.
      apply in_map_iff. now exists (d, sub).
    + now apply IH.
Qed.

Lemma unique_names_In (entries : list (string * node)) (d : string) (sub : node) :
  unique_names (Dir entries) -> In (d, sub) entries -> unique_names sub.
Proof.
  cbn [unique_names]. intros [_ H].
  induction entries as [|[x n] es IH]; intros Hin; [destruct Hin|].
  destruct H as [Hn Hes]. destruct Hin as [Hin|Hin].
  - now injection Hin as -> ->.
  - now apply IH.
Qed.

Lemma file_at_is_dir (top : string) (n : node) (y : string) :
  file_at top n y -> is_dir n = true.
Proof. now destruct 1. Qed.

Lemma file_at_yielded (p : string -> bool) (top : string) (n : node) (y : string) :
  (forall x, p x = false) ->
  file_at top n y -> unique_names n -> In (Yielded y) (walk p top n).
Proof.
  intros Hp. induction 1 as [top entries f sub Hin Hd
                            |top entries d sub path Hin Hf IH]; intros Hu.
  - apply (visits_In p top _ top entries); [constructor|].
    apply level_Yielded. exists f. repeat split; auto.
    apply nondirnames_In_file. now exists sub.
  - rewrite walk_Dir. apply in_or_app. right. apply in_flat_map.
    exists d. split.
    + rewrite prune_keeps_all by (intros; apply Hp).
      apply (dirnames_In_dir entries d sub Hin).
      exact (file_at_is_dir _ _ _ Hf).
    + rewrite (lookup_unique entries d sub (proj1 Hu) Hin).
      apply IH. exact (unique_names_In entries d sub Hu Hin).
Qed.

(** X11: with no predicate given, the traversal of a directory whose
    listings repeat no name yields exactly the files of the tree: every
    file at any depth, and nothing else. *)
Theorem filenames_from_default_yields_all (fs : string -> option node)
        (arg : string) (entries : list (string * node)) (y : string) :
  fs arg = Some (Dir entries) ->
  unique_names (Dir entries) ->
  (In y (yielded (filenames_from fs arg None))
   <-> file_at arg (Dir entries) y).
Proof.
  intros Hfs Hu. rewrite filenames_from_default,
    (filenames_from_Dir fs arg _default_predicate entries Hfs). split.
  - intros Hy. apply In_yielded in Hy.
    apply walk_events in Hy as (cur & es & Hv & Hin).
    apply level_Yielded in Hin as (f & Hf & -> & _).
    apply nondirnames_In_file in Hf as (sub & Hs & Hd).
    exact (visits_file_at _ arg _ cur es f sub Hv Hs Hd).
  - intros Hf. apply In_yielded.
    now apply file_at_yielded.
Qed.

Lemma filenames_from_default_yields_all_witness :
  In "root/skip_dir/inner.py"%string
     (yielded (filenames_from (mount "root" spec_tree) "root" None)).
Proof.
  apply (filenames_from_default_yields_all
           (mount "root" spec_tree) "root" spec_entries
           "root/skip_dir/inner.py" eq_refl).
  - cbn. repeat split; repeat constructor; simpl; intuition discriminate.
  - apply file_below with (d := "skip_dir"%string) (sub := Dir [("inner.py"%string, File)]).
    + in_list.
    + apply (file_here "root/skip_dir" [("inner.py"%string, File)] "inner.py" File).
      * now left.
      * reflexivity.
Defined.

(** ** What the loop over [sub_directories] leaves *)

Lemma keep_not_excluded (p : string -> bool) (l : list string) :
  forall skip d, In d l -> p d = false -> In d (keep p skip l).
Proof.
  induction l as [|x rest IH]; intros skip d Hin Hp; [destruct Hin|].
  simpl. destruct Hin as [->|Hin].
  - destruct skip; [now left|]. rewrite Hp. now left.
  - destruct skip; [right; now apply IH|].
    destruct (p x); [|right]; now apply IH.
Qed.

(** X12: on a listing that repeats no name, the loop only ever removes:
    what it leaves was listed; a sub-directory the predicate does not
    exclude is always left in, so it is descended into; and one that the
    predicate was asked about and excluded is always removed. *)
Theorem prune_removes_only_excluded (p : string -> bool) (dirs : list string) :
  NoDup dirs ->
  (forall d, In d (snd (prune p dirs)) -> In d dirs)
  /\ (forall d, In d dirs -> p d = false -> In d (snd (prune p dirs)))
  /\ (forall d, In d (called (fst (prune p dirs))) -> p d = true ->
                ~ In d (snd (prune p dirs))).
Proof.
  intros Hnd. rewrite (prune_final p dirs Hnd). split; [|split].
  - intros d. apply keep_In.
  - intros d. apply keep_not_excluded.
  - intros d Hc Hp Hin. rewrite prune_called in Hc.
    exact (keep_excluded_not_queried p dirs Hnd false d Hin Hp Hc).
Qed.

Lemma prune_removes_only_excluded_witness :
  In "keep_dir"%string (snd (prune exclude_skip_dir ["skip_dir"; "keep_dir"]%string))
  /\ ~ In "skip_dir"%string
          (snd (prune exclude_skip_dir ["skip_dir"; "keep_dir"]%string)).
Proof.
  assert (Hnd : NoDup ["skip_dir"; "keep_dir"]%string).
  { repeat constructor; simpl; intuition discriminate. }
  destruct (prune_removes_only_excluded exclude_skip_dir
              ["skip_dir"; "keep_dir"]%string Hnd) as (_ & H2 & H3).
  split.
  - apply H2; [in_list|reflexivity].
  - apply H3; [in_list|reflexivity].
Defined.

Lemma keep_no_adjacent (p : string -> bool) (l : list string) :
  no_adjacent_excluded p l = true ->
  keep p false l = filter (fun d => negb (p d)) l
  /\ (match l with
      | [] => True
      | x :: _ => p x = false
      end -> keep p true l = filter (fun d => negb (p d)) l).
Proof.
  induction l as [|x rest IH]; intros H; [now split|].
  assert (Hrest : no_adjacent_excluded p rest = true).
  { destruct rest as [|y r]; [reflexivity|].
    cbn [no_adjacent_excluded] in H. now apply andb_true_iff in H. }
  destruct (IH Hrest) as [IH1 IH2]. cbn [keep filter]. split.
  - destruct (p x) eqn:Px; cbn [negb]; [|now rewrite IH1].
    apply IH2. destruct rest as [|y r]; [exact I|].
    cbn [no_adjacent_excluded] in H. apply andb_true_iff in H as [H _].
    rewrite Px in H. simpl in H. now apply negb_true_iff in H.
  - intros Px. rewrite Px. cbn [negb]. now rewrite IH1.
Qed.

(** X13: on a listing that repeats no name and in which no two excluded
    names are adjacent, the loop prunes exactly: it leaves the names the
    predicate does not exclude, in order, and no other. *)
Theorem prune_exact_without_adjacent (p : string -> bool) (dirs : list string) :
  NoDup dirs ->
  no_adjacent_excluded p dirs = true ->
  snd (prune p dirs) = filter (fun d => negb (p d)) dirs.
Proof.
  intros Hnd Ha. rewrite (prune_final p dirs Hnd).
  exact (proj1 (keep_no_adjacent p dirs Ha)).
Qed.

Lemma prune_exact_without_adjacent_witness :
  snd (prune exclude_a_b ["a"; "lib"; "b"; "src"]%string) = ["lib"; "src"]%string.
Proof.
  rewrite (prune_exact_without_adjacent exclude_a_b ["a"; "lib"; "b"; "src"]%string).
  - reflexivity.
  - repeat constructor; simpl; intuition discriminate.
  - reflexivity.
Defined.

(** ** Order of the yields *)

Lemma yielded_flat_map (A : Type) (g : A -> list event) (l : list A) :
  yielded (flat_map g l) = flat_map (fun x => yielded (g x)) l.
Proof.
  induction l as [|x l IH]; [reflexivity|].
  cbn [flat_map]. now rewrite yielded_app, IH.
Qed.

(** X14: the traversal is pre-order: the walk of a directory yields the
    kept files of the directory itself, in listing order, and then, for
    each sub-directory the loop left in the list, in order, what the walk
    of that sub-directory yields. *)
Theorem walk_yields_preorder (p : string -> bool) (top : string)
        (entries : list (string * node)) :
  yielded (walk p top (Dir entries))
  = map (posixpath.join top)
        (filter (fun f => negb (p f) && negb (p (posixpath.join top f)))
                (nondirnames entries))
    ++ flat_map (fun d => match lookup d entries with
                          | Some sub => yielded (walk p (posixpath.join top d) sub)
                          | None => []
                          end)
                (snd (prune p (dirnames entries))).
Proof.
  rewrite walk_Dir, yielded_app. unfold level_events.
  cbn [yielded]. rewrite yielded_app, prune_yielded, app_nil_r.
  rewrite files_loop_yielded, yielded_flat_map. f_equal.
  apply flat_map_ext. intros d. now destruct (lookup d entries).
Qed.

(** ** Pattern lists *)




(** ** [parameters_for] *)

Lemma list_remove_checked_None (x : string) (l : list string) :
  list_remove_checked x l = None <-> ~ In x l.
Proof.
  induction l as [|y t IH]; simpl; [tauto|].
  destruct (String.eqb y x) eqn:E.
  - apply String.eqb_eq in E. split; [discriminate|]. intros H. exfalso. auto.
  - apply String.eqb_neq in E.
    destruct (list_remove_checked x t) as [t'|].
    + split; [discriminate|]. intros H. exfalso. apply H. right.
      destruct (in_dec string_dec x t) as [Hi|Hi]; [exact Hi|].
      now apply IH in Hi.
    + split; [|reflexivity]. intros _ [H|H]; [congruence|].
      now apply (proj1 IH).
Qed.

Lemma list_remove_checked_length (x : string) (l l' : list string) :
  list_remove_checked x l = Some l' -> List.length l = S (List.length l').
Proof.
  revert l'. induction l as [|y t IH]; simpl; intros l'; [discriminate|].
  destruct (String.eqb y x); [now intros [= <-]|].
  destruct (list_remove_checked x t) as [t'|]; [|discriminate].
  intros [= <-]. simpl. now rewrite (IH t' eq_refl).
Qed.

Lemma list_remove_checked_middle (x : string) (before after : list string) :
  ~ In x before ->
  list_remove_checked x (before ++ x :: after) = Some (before ++ after).
Proof.
  induction before as [|y before IH]; intros Hn; simpl.
  - now rewrite String.eqb_refl.
  - destruct (String.eqb y x) eqn:E.
    + apply String.eqb_eq in E. subst. exfalso. apply Hn. now left.
    + rewrite IH; [reflexivity|]. intros H. apply Hn. now right.
Qed.

(** X16: for a class, the first positional-or-keyword parameter of
    [__init__] named [self] is left out and nothing else: the result is
    that of a function declaring the other parameters, in the same
    order. *)
Theorem parameters_for_class_drops_self (before after : list parameter) :
  ~ In "self"%string
       (map parameter_name (filter is_positional_or_keyword before)) ->
  parameters_for
    (PluginClass (before ++ mkParameter "self" POSITIONAL_OR_KEYWORD :: after))
  = parameters_for (PluginFunction (before ++ after))
  /\ parameters_for (PluginFunction (before ++ after))
     = Some (map parameter_name
                 (filter is_positional_or_keyword (before ++ after))).
Proof.
  intros Hn. split; [|reflexivity]. unfold parameters_for.
  rewrite !filter_app, !map_app. cbn [filter is_positional_or_keyword
    parameter_kind_of map parameter_name].
  now apply list_remove_checked_middle.
Qed.

Lemma parameters_for_class_drops_self_witness :
  parameters_for
    (PluginClass [mkParameter "self" POSITIONAL_OR_KEYWORD;
                  mkParameter "tree" POSITIONAL_OR_KEYWORD;
                  mkParameter "filename" POSITIONAL_OR_KEYWORD;
                  mkParameter "kwargs" VAR_KEYWORD])
  = Some ["tree"; "filename"].
Proof.
  exact (proj1 (parameters_for_class_drops_self
                  [] [mkParameter "tree" POSITIONAL_OR_KEYWORD;
                      mkParameter "filename" POSITIONAL_OR_KEYWORD;
                      mkParameter "kwargs" VAR_KEYWORD]
                  (fun H => H))).
Defined.

(** X17: a function never makes [parameters_for] raise; a class does,
    with [ValueError], exactly when no positional-or-keyword parameter of
    its [__init__] is named [self]; otherwise one name is removed. *)
Theorem parameters_for_raises_iff (signature : list parameter) :
  parameters_for (PluginFunction signature) <> None
  /\ (parameters_for (PluginClass signature) = None
      <-> ~ In "self"%string
               (map parameter_name (filter is_positional_or_keyword signature)))
  /\ (forall names,
         parameters_for (PluginClass signature) = Some names ->
         S (List.length names)
         = List.length (filter is_positional_or_keyword signature)).
Proof.
  split; [discriminate|]. split.
  - apply list_remove_checked_None.
  - intros names H. unfold parameters_for in H.
    apply list_remove_checked_length in H. now rewrite length_map in H.
Qed.

Lemma parameters_for_raises_iff_witness :
  parameters_for
    (PluginClass [mkParameter "self" POSITIONAL_ONLY;
                  mkParameter "args" VAR_POSITIONAL;
                  mkParameter "kwargs" VAR_KEYWORD]) = None.
Proof.
  apply (proj1 (proj2 (parameters_for_raises_iff
                         [mkParameter "self" POSITIONAL_ONLY;
                          mkParameter "args" VAR_POSITIONAL;
                          mkParameter "kwargs" VAR_KEYWORD]))).
  simpl. tauto.
Defined.

(** ** End-of-line tokens *)

Lemma token_type_eqb_eq (a b : token_type) :
  token_type_eqb a b = true <-> a = b.
Proof.
  destruct a, b; simpl; split; intros H; try reflexivity; try discriminate.
  - apply Nat.eqb_eq in H. now subst.
  - injection H as ->. apply Nat.eqb_refl.
Qed.

Lemma lstrip_all_space (ws t : string) :
  all_space ws = true -> pystr.lstrip (ws ++ t)%string = pystr.lstrip t.
Proof.
  induction ws as [|a ws IH]; simpl; intros H; [reflexivity|].
  apply andb_true_iff in H as [Ha Hws]. rewrite Ha. now apply IH.
Qed.

(** Left-stripping gives a text that starts with a non-blank exactly when
    the string is that text after some whitespace. *)
Lemma lstrip_eq (s : string) (a : ascii) (t : string) :
  pystr.isspace a = false ->
  (pystr.lstrip s = String a t
   <-> exists ws, all_space ws = true /\ s = (ws ++ String a t)%string).
Proof.
  intros Ha. split.
  - induction s as [|b r IH]; simpl; [discriminate|].
    destruct (pystr.isspace b) eqn:Hb.
    + intros H. destruct (IH H) as (ws & Hws & ->).
      exists (String b ws). split; [simpl; now rewrite Hb|reflexivity].
    + intros H. exists ""%string. split; [reflexivity|exact H].
  - intros (ws & Hws & ->). rewrite (lstrip_all_space ws _ Hws).
    simpl. now rewrite Ha.
Qed.

(** X18: a token is an end-of-line token exactly when its type is [NL] or
    [NEWLINE], or what follows its end column on its line is whitespace and
    then a backslash and the newline, or, where [COMMENT_WITH_NL] holds,
    it is a comment that is its whole line. *)
Theorem is_eol_token_spec (COMMENT_WITH_NL : bool) (tok : token) :
  is_eol_token COMMENT_WITH_NL tok = true
  <-> (token_type_of tok = NL \/ token_type_of tok = NEWLINE_TOKEN)
      \/ (exists ws,
             all_space ws = true
             /\ slice_from (snd (token_end tok)) (token_line tok)
                = (ws ++ backslash_newline)%string)
      \/ (COMMENT_WITH_NL = true
          /\ token_type_of tok = COMMENT
          /\ token_string tok = token_line tok).
Proof.
  assert (Hbase : _is_eol_token tok = true
                  <-> (token_type_of tok = NL \/ token_type_of tok = NEWLINE_TOKEN)
                      \/ (exists ws,
                             all_space ws = true
                             /\ slice_from (snd (token_end tok)) (token_line tok)
                                = (ws ++ backslash_newline)%string)).
  { unfold _is_eol_token, NEWLINE. cbn [existsb].
    rewrite !orb_true_iff, !token_type_eqb_eq, String.eqb_eq.
    unfold backslash_newline. rewrite lstrip_eq by reflexivity.
    intuition discriminate. }
  unfold is_eol_token. destruct COMMENT_WITH_NL.
  - rewrite orb_true_iff, andb_true_iff, token_type_eqb_eq, String.eqb_eq, Hbase.
    tauto.
  - rewrite Hbase. intuition discriminate.
Qed.

(** ** Descent into sub-directories *)

Lemma prunable_In (p : string -> bool) (entries : list (string * node))
      (d : string) (sub : node) :
  prunable p (Dir entries) -> In (d, sub) entries -> prunable p sub.
Proof.
  cbn [prunable]. intros (_ & _ & H).
  induction entries as [|[x n] es IH]; intros Hin; [destruct Hin|].
  destruct H as [Hn Hes]. destruct Hin as [Hin|Hin].
  - now injection Hin as -> ->.
  - now apply IH.
Qed.

Lemma visits_through_kept (p : string -> bool) (top : string) (n : node)
      (cur : string) (es : list (string * node)) :
  visits p top n cur es ->
  prunable p n ->
  cur = top
  \/ exists parent pes d,
       visits p top n parent pes /\ In d (dirnames pes)
       /\ cur = posixpath.join parent d /\ p d = false.
Proof.
  induction 1 as [top entries|top entries d sub cur es Hd L Hv IH]; intros Hp.
  - now left.
  - right.
    assert (Hkept : In d (dirnames entries) /\ p d = false).
    { destruct Hp as (Hnd & Ha & _).
      rewrite (prune_final p _ Hnd), (proj1 (keep_no_adjacent p _ Ha)) in Hd.
      apply filter_In in Hd as [Hin Hpd]. split; [exact Hin|].
      now apply negb_true_iff in Hpd. }
    destruct (IH (prunable_In p entries d sub Hp (lookup_In _ _ _ L)))
      as [-> | (parent & pes & d' & Hv' & Hd' & -> & Hpd')].
    + exists top, entries, d. split; [constructor|]. tauto.
    + exists parent, pes, d'. split; [|tauto].
      now apply visits_below with (d := d) (sub := sub).
Qed.

(** X19: in a tree where no listing repeats a sub-directory name or has two
    excluded sub-directories next to each other, the traversal never
    descends into an excluded directory: every directory it lists, other
    than the argument, was reached from a listed parent through a
    sub-directory name that the predicate does not exclude. *)
Theorem filenames_from_descends_only_into_kept
        (fs : string -> option node) (arg : string) (p : string -> bool)
        (entries : list (string * node))
        (cur : string) (dirs files : list string) :
  fs arg = Some (Dir entries) ->
  prunable p (Dir entries) ->
  In (Listed cur dirs files) (filenames_from fs arg (Some p)) ->
  cur = arg
  \/ exists parent pdirs pfiles d,
       In (Listed parent pdirs pfiles) (filenames_from fs arg (Some p))
       /\ In d pdirs /\ cur = posixpath.join parent d /\ p d = false.
Proof.
  intros Hfs Hp Hl. rewrite (filenames_from_Dir fs arg p entries Hfs) in *.
  apply Listed_visits in Hl as (es & Hv & _ & _).
  destruct (visits_through_kept p arg _ cur es Hv Hp)
    as [H | (parent & pes & d & Hv' & Hd & Hc & Hpd)]; [now left|right].
  exists parent, (dirnames pes), (nondirnames pes), d. repeat split; try assumption.
  apply (visits_In p arg _ parent pes _ Hv'). now left.
Qed.

Lemma filenames_from_descends_only_into_kept_witness :
  "root/keep_dir"%string = "root"%string
  \/ exists parent pdirs pfiles d,
       In (Listed parent pdirs pfiles)
          (filenames_from (mount "root" spec_tree) "root" (Some exclude_skip_dir))
       /\ In d pdirs /\ "root/keep_dir"%string = posixpath.join parent d
       /\ exclude_skip_dir d = false.
Proof.
  apply (filenames_from_descends_only_into_kept
           (mount "root" spec_tree) "root" exclude_skip_dir spec_entries
           "root/keep_dir" [] ["x.py"%string] eq_refl).
  - cbn. repeat split; repeat constructor; simpl; intuition discriminate.
  - in_list.
Defined.
